(** * Task3_Automation: the email pipeline, the title scraper and the
    image mover, embedded from the Python scripts under
    [Task3_Automation/scripts/].

    Python [str] values are sequences of Unicode code points; they are
    modelled as [list Z].  The two regular expressions of
    [extract_emails.py] are written as item lists for a small backtracking
    matcher that follows the search order of Python's [re] engine (greedy
    repetition, longest attempt first).  Files, console, network and
    clock are an explicit world that every operation threads through;
    what the scripts take from libraries and tables that are not theirs
    (Unicode classes, [urlparse], the answer of the network) is a
    variable of the section that uses it. *)

From Stdlib Require Import ZArith Lia String Ascii.
From stdpp Require Import base option list gmap sets.

Local Open Scope Z_scope.
Set Warnings "-clear-no-such-hyp".

(** ** Python strings *)

Module PyStr.

Abbreviation pystr := (list Z).

(** A source-code literal, one code point per character. *)
Fixpoint lit (s : string) : pystr :=
  match s with
  | EmptyString => []
  | String a r => Z.of_N (N_of_ascii a) :: lit r
  end.

#[global] Opaque lit.

Definition is_upper (c : Z) : bool := (65 <=? c) && (c <=? 90).
Definition is_lower (c : Z) : bool := (97 <=? c) && (c <=? 122).
Definition is_digit (c : Z) : bool := (48 <=? c) && (c <=? 57).
Definition is_ascii (c : Z) : bool := (0 <=? c) && (c <? 128).

(** [c in "..."] for a literal set of characters. *)
Definition one_of (s : string) (c : Z) : bool :=
  existsb (Z.eqb c) (lit s).

Definition NL : Z := 10.

(** [str.lower()] on an ASCII character. *)
Definition ascii_lower (c : Z) : Z := if is_upper c then c + 32 else c.

(** [str(n)] for a non-negative integer: decimal digits, most
    significant first. *)
Fixpoint digits_of (fuel n : nat) (acc : pystr) : pystr :=
  match fuel with
  | O => acc
  | S fuel' =>
      let acc' := (48 + Z.of_nat (n mod 10)) :: acc in
      if (n / 10 =? 0)%nat then acc' else digits_of fuel' (n / 10) acc'
  end.

Definition str_of_nat (n : nat) : pystr := digits_of (S n) n [].

(** ["c" * n] *)
Definition repeat_char (c : Z) (n : nat) : pystr := replicate n c.

(** [s.split("\n")]: the pieces between line feeds (always at least
    one piece). *)
Fixpoint split_lines (s : pystr) : list pystr :=
  match s with
  | [] => [[]]
  | c :: r =>
      if c =? NL then [] :: split_lines r
      else match split_lines r with
           | l :: ls => (c :: l) :: ls
           | [] => [[c]]
           end
  end.

End PyStr.

Import PyStr.

(** ** The regular-expression matcher *)

Module Re.

(** The constructs the two patterns use.  [Rep cls lo] is the greedy
    repetition [[cls]{lo,}] of a character class. *)
Inductive item : Type :=
| Bnd                                  (* \b *)
| Bol                                  (* ^  *)
| Eol                                  (* $  (no MULTILINE) *)
| Eos                                  (* end of string, as fullmatch adds *)
| Lit (c : Z)
| Rep (cls : Z -> bool) (lo : nat).

Section Engine.

(** [str.isalnum()] outside ASCII: the Unicode tables are not part of
    the scripts. *)
Variable unicode_alnum : Z -> bool.

(** [\w] for a [str] pattern. *)
Definition is_word (c : Z) : bool :=
  is_upper c || is_lower c || is_digit c || (c =? 95)
  || ((128 <=? c) && unicode_alnum c).

Definition word_opt (o : option Z) : bool :=
  match o with Some c => is_word c | None => false end.

(** [\b] between the character before the position and the one at
    it. *)
Definition at_boundary (prev next : option Z) : bool :=
  xorb (word_opt prev) (word_opt next).

(** The character before the position reached after consuming
    [run]. *)
Definition last_char (prev : option Z) (run : pystr) : option Z :=
  match last run with Some c => Some c | None => prev end.

(** Greedy [[cls]{lo,}] followed by the rest of the pattern [k]:
    consume one more character first, give one back on failure. *)
Fixpoint rep_greedy (cls : Z -> bool)
    (k : option Z -> pystr -> option pystr)
    (lo : nat) (prev : option Z) (s : pystr) {struct s}
    : option pystr :=
  let stop := match lo with O => k prev s | S _ => None end in
  match s with
  | c :: s' =>
      if cls c then
        match rep_greedy cls k (Nat.pred lo) (Some c) s' with
        | Some m => Some (c :: m)
        | None => stop
        end
      else stop
  | [] => stop
  end.

(** Match the items at the current position; the result is the
    matched text. [prev] is the character before the position
    ([None] at the start of the string). *)
Fixpoint match_items (its : list item) (prev : option Z) (s : pystr)
    : option pystr :=
  match its with
  | [] => Some []
  | Bnd :: r =>
      if at_boundary prev (head s) then match_items r prev s else None
  | Bol :: r =>
      match prev with None => match_items r prev s | Some _ => None end
  | Eol :: r =>
      match s with
      | [] => match_items r prev s
      | [c] => if c =? NL then match_items r prev s else None
      | _ => None
      end
  | Eos :: r =>
      match s with [] => match_items r prev s | _ => None end
  | Lit c :: r =>
      match s with
      | c' :: s' =>
          if c' =? c then cons c' <$> match_items r (Some c') s'
          else None
      | [] => None
      end
  | Rep cls lo :: r => rep_greedy cls (match_items r) lo prev s
  end.

(** [re.match(pattern, s)]: anchored at the start. *)
Definition re_match (pat : list item) (s : pystr) : option pystr :=
  match_items pat None s.

(** [re.fullmatch(pattern, s)]. *)
Definition re_fullmatch (pat : list item) (s : pystr) : option pystr :=
  match_items (pat ++ [Eos]) None s.

(** [re.findall(pattern, s)] for a pattern without groups: scan left
    to right, record each match and resume where it ended. [skip]
    counts the characters of the last match still to be passed. *)
Fixpoint findall_from (pat : list item) (skip : nat)
    (prev : option Z) (s : pystr) {struct s} : list pystr :=
  match skip with
  | S k =>
      match s with
      | [] => []
      | c :: s' => findall_from pat k (Some c) s'
      end
  | O =>
      match match_items pat prev s with
      | Some m =>
          m :: match s with
               | [] => []
               | c :: s' =>
                   findall_from pat (Nat.pred (length m)) (Some c) s'
               end
      | None =>
          match s with
          | [] => []
          | c :: s' => findall_from pat O (Some c) s'
          end
      end
  end.

Definition re_findall (pat : list item) (s : pystr) : list pystr :=
  findall_from pat O None s.

End Engine.

End Re.

(** ** extract_emails.py: patterns, deduplication, validation *)

Module Emails.

Import Re.

(** [[A-Za-z0-9._%+-]] *)
Definition local_cls (c : Z) : bool :=
  is_upper c || is_lower c || is_digit c || one_of "._%+-" c.

(** [[A-Za-z0-9.-]] *)
Definition domain_cls (c : Z) : bool :=
  is_upper c || is_lower c || is_digit c || one_of ".-" c.

(** [[A-Z|a-z]]: inside a class the bar is an ordinary character. *)
Definition tld_cls (c : Z) : bool :=
  is_upper c || one_of "|" c || is_lower c.

(** [[a-zA-Z]] *)
Definition strict_tld_cls (c : Z) : bool :=
  is_lower c || is_upper c.

Definition AT : Z := 64.
Definition DOT : Z := 46.
Definition BAR : Z := 124.

(** [r'\b[A-Za-z0-9._%+-]+@[A-Za-z0-9.-]+\.[A-Z|a-z]{2,}\b'] *)
Definition email_pattern : list item :=
  [Bnd; Rep local_cls 1; Lit AT; Rep domain_cls 1; Lit DOT;
   Rep tld_cls 2; Bnd].

(** [r'^[a-zA-Z0-9._%+-]+@[a-zA-Z0-9.-]+\.[a-zA-Z]{2,}$'] *)
Definition strict_pattern : list item :=
  [Bol; Rep local_cls 1; Lit AT; Rep domain_cls 1; Lit DOT;
   Rep strict_tld_cls 2; Eol].

Section Pipeline.

Variable unicode_alnum : Z -> bool.
(** [str.lower()] on a string with a character outside ASCII. *)
Variable unicode_lower : pystr -> pystr.

Definition lower (s : pystr) : pystr :=
  if forallb is_ascii s then map ascii_lower s else unicode_lower s.

(** [found_emails = re.findall(email_pattern, content)] *)
Definition find_emails (content : pystr) : list pystr :=
  re_findall unicode_alnum email_pattern content.

(** One turn of the loop over [found_emails]; the state is
    [(emails, seen)]. *)
Definition dedup_step (st : list pystr * gset pystr) (email : pystr)
    : list pystr * gset pystr :=
  if decide (lower email ∈ st.2) then st
  else (st.1 ++ [email], st.2 ∪ {[lower email]}).

Definition dedup (found_emails : list pystr) : list pystr :=
  (fold_left dedup_step found_emails ([], ∅)).1.

(** The dictionary [validate_emails] returns. *)
Record validation : Type := Validation {
  valid : list pystr;
  invalid : list pystr;
  total_valid : nat;
  total_invalid : nat
}.

Definition strict_ok (email : pystr) : bool :=
  bool_decide (is_Some (re_match unicode_alnum strict_pattern email)).

Definition validate_step (st : list pystr * list pystr) (email : pystr)
    : list pystr * list pystr :=
  if strict_ok email then (st.1 ++ [email], st.2)
  else (st.1, st.2 ++ [email]).

Definition validate_emails (email_list : list pystr) : validation :=
  let st := fold_left validate_step email_list ([], []) in
  {| valid := st.1; invalid := st.2;
     total_valid := length st.1; total_invalid := length st.2 |}.

End Pipeline.

End Emails.

(** ** The world the scripts run in: files, console, network, clock *)

Module Sys.

(** A [pathlib.Path], as the list of its components from the root. *)
Abbreviation path := (list pystr).

Inductive node : Type :=
| File (content : pystr)
| Dir.

(** The exception classes the scripts and [pathlib] distinguish;
    [OtherError] is any other subclass of [Exception]. *)
Inductive exn : Type :=
| OSError (msg : pystr)
| FileNotFoundError (msg : pystr)    (* the OSError of a missing entry *)
| ValueError (msg : pystr)
| ReqTimeout (msg : pystr)           (* requests.exceptions.Timeout *)
| ReqConnectTimeout (msg : pystr)    (* ConnectionError and Timeout *)
| ReqConnectionError (msg : pystr)   (* requests.exceptions.ConnectionError *)
| ReqOther (msg : pystr)             (* another RequestException *)
| OtherError (msg : pystr).

(** [str(e)] *)
Definition exn_str (e : exn) : pystr :=
  match e with
  | OSError m | FileNotFoundError m | ValueError m | ReqTimeout m
  | ReqConnectTimeout m | ReqConnectionError m | ReqOther m
  | OtherError m => m
  end.

Inductive syscall : Type :=
| SysStat (p : path)
| SysRead (p : path)
| SysMkdir (p : path)
| SysOpenW (p : path)
| SysWrite (p : path) (data : pystr)
| SysGlob (p : path)
| SysMove (src dst : path).

(** Why a call cannot be served by the tree as it stands. *)
Inductive failure : Type :=
| NoSuchFile
| FileExists
| NotADirectory
| IsADirectory
| BadDescriptor
| IntoItself.

Record world : Type := World {
  w_fs : gmap path node;
  w_console : list pystr;           (* lines printed so far *)
  w_requests : list (pystr * Z);    (* HTTP requests sent: url, timeout *)
  w_ticks : nat                     (* clock readings taken so far *)
}.

Inductive res (A : Type) : Type :=
| Ok (a : A)
| Raise (e : exn).
Arguments Ok {A} a.
Arguments Raise {A} e.

(** A computation: runs in a world, returns or raises, leaves a world. *)
Definition M (A : Type) : Type := world -> res A * world.

Definition ret {A} (a : A) : M A := fun w => (Ok a, w).
Definition bind {A B} (c : M A) (k : A -> M B) : M B :=
  fun w => match c w with
           | (Ok a, w') => k a w'
           | (Raise e, w') => (Raise e, w')
           end.
Definition raise {A} (e : exn) : M A := fun w => (Raise e, w).

(** [try: body  except Exception as e: handler(e)] *)
Definition try_except {A} (body : M A) (handler : exn -> M A) : M A :=
  fun w => match body w with
           | (Ok a, w') => (Ok a, w')
           | (Raise e, w') => handler e w'
           end.

Declare Scope py_scope.
Delimit Scope py_scope with py.
Notation "x <- c ;; k" := (bind c (fun x => k))
  (at level 100, c at next level, right associativity) : py_scope.
Notation "c ;;; k" := (bind c (fun _ => k))
  (at level 100, right associativity) : py_scope.
Local Open Scope py_scope.

Fixpoint for_each {A} (l : list A) (body : A -> M unit) : M unit :=
  match l with
  | [] => ret tt
  | x :: r => body x ;;; for_each r body
  end.

(** [enumerate(l, 1)] *)
Definition enumerate1 {A} (l : list A) : list (nat * A) :=
  zip (seq 1 (length l)) l.

(** [str(path)] *)
Definition path_str (p : path) : pystr :=
  match p with
  | [] => lit "/"
  | _ => concat (map (cons 47) p)
  end.

(** [path.parent] *)
Definition parent (p : path) : path := removelast p.

(** [path.name] *)
Definition name (p : path) : pystr := default [] (last p).

(** The tree holds the nodes the process can reach. *)
Definition lookup_node (fs : gmap path node) (p : path) : option node :=
  match p with [] => Some Dir | _ => fs !! p end.

Definition is_dir (fs : gmap path node) (p : path) : bool :=
  match lookup_node fs p with Some Dir => true | _ => false end.

Definition is_file (fs : gmap path node) (p : path) : bool :=
  match lookup_node fs p with Some (File _) => true | _ => false end.

(** The proper prefixes of [p] and [p] itself, shortest first. *)
Definition ancestors_and_self (p : path) : list path :=
  map (fun n => take n p) (seq 1 (length p)).

(** The tree after [mkdir -p]. *)
Definition with_dirs (fs : gmap path node) (p : path) : gmap path node :=
  foldr (fun q m => <[q := Dir]> m) fs (ancestors_and_self p).

(** The tree after renaming [src] (a file, or a directory with all
    below it) to [dst]. *)
Definition renamed (fs : gmap path node) (src dst : path)
    : gmap path node :=
  list_to_map
    (map (fun kv : path * node =>
            if bool_decide (src `prefix_of` kv.1)
            then (dst ++ drop (length src) kv.1, kv.2) else kv)
         (map_to_list fs)).

(** The entries of the directory [p] whose name ends with [suffix], as
    [path.glob("*" + suffix)] lists them; nothing when [p] is not a
    directory. *)
Definition globbed (fs : gmap path node) (p : path) (suffix : pystr)
    : list path :=
  if is_dir fs p
  then filter (fun q : path =>
                 q <> [] /\ parent q = p /\ suffix `suffix_of` name q)
              (map fst (map_to_list fs))
  else [].

Section Ops.

(** What the operating system refuses for reasons outside the tree
    (permissions, quotas, device errors, a name too long), with the text
    of the exception. *)
Variable os_fault : syscall -> option pystr.
(** [str(e)] for the exception a call raises when the tree does not
    allow it. *)
Variable strerror : failure -> syscall -> pystr.
(** [datetime.now().strftime(fmt)] at the n-th reading of the clock. *)
Variable strftime : pystr -> nat -> pystr.

Definition print (line : pystr) : M unit :=
  fun w => (Ok tt, {| w_fs := w_fs w; w_console := w_console w ++ [line];
                      w_requests := w_requests w; w_ticks := w_ticks w |}).

Definition now_strftime (fmt : pystr) : M pystr :=
  fun w => (Ok (strftime fmt (w_ticks w)),
            {| w_fs := w_fs w; w_console := w_console w;
               w_requests := w_requests w; w_ticks := S (w_ticks w) |}).

Definition set_fs (fs : gmap path node) (w : world) : world :=
  {| w_fs := fs; w_console := w_console w;
     w_requests := w_requests w; w_ticks := w_ticks w |}.

(** Run a system call unless the system refuses it. *)
Definition guarded {A} (call : syscall) (c : M A) : M A :=
  match os_fault call with
  | Some msg => raise (OSError msg)
  | None => c
  end.

(** [path.exists()]: true for a node of the tree. For a path outside
    the tree, [stat] either reports that nothing is there, and the result
    is false, or fails for another reason (a name too long, a directory
    that may not be searched), and [exists] lets that exception through. *)
Definition path_exists (p : path) : M bool :=
  fun w => match lookup_node (w_fs w) p with
           | Some _ => (Ok true, w)
           | None => guarded (SysStat p) (ret false) w
           end.

(** [open(path, 'r', encoding='utf-8', errors='ignore').read()]; a
    file node holds the text the decoder yields. *)
Definition read_text (p : path) : M pystr :=
  guarded (SysRead p) (fun w =>
    match lookup_node (w_fs w) p with
    | Some (File c) => (Ok c, w)
    | Some Dir => (Raise (OSError (strerror IsADirectory (SysRead p))), w)
    | None =>
        (Raise (FileNotFoundError (strerror NoSuchFile (SysRead p))), w)
    end).

(** The first entry on the way to [p], [p] included, that is not a
    directory. *)
Definition first_obstacle (fs : gmap path node) (p : path) : option path :=
  find (fun q => negb (is_dir fs q)) (ancestors_and_self p).

(** [os.mkdir(path)]: the directories above must be there, the name
    must be free. *)
Definition os_mkdir (p : path) : M unit :=
  fun w =>
    match first_obstacle (w_fs w) (parent p) with
    | Some q =>
        match w_fs w !! q with
        | None =>
            (Raise (FileNotFoundError (strerror NoSuchFile (SysMkdir p))), w)
        | Some _ =>
            (Raise (OSError (strerror NotADirectory (SysMkdir p))), w)
        end
    | None =>
        guarded (SysMkdir p) (fun w =>
          match lookup_node (w_fs w) p with
          | Some _ => (Raise (OSError (strerror FileExists (SysMkdir p))), w)
          | None => (Ok tt, set_fs (<[p := Dir]> (w_fs w)) w)
          end) w
    end.

(** The [except OSError] clause of [Path.mkdir] with [exist_ok=True]:
    the exception is dropped when a directory stands at the path. *)
Definition unless_is_dir (p : path) (e : exn) : M unit :=
  fun w =>
    match first_obstacle (w_fs w) p with
    | None => (Ok tt, w)
    | Some _ => (Raise e, w)
    end.

(** [path.mkdir(parents=False, exist_ok=True)] *)
Definition mkdir_exist_ok (p : path) : M unit :=
  try_except (os_mkdir p)
    (fun e => match e with
              | FileNotFoundError _ => raise e
              | _ => unless_is_dir p e
              end).

(** [path.mkdir(parents=True, exist_ok=True)]: when a directory above
    is missing, make the parent in the same way and try once more.
    [fuel] bounds the climb; the length of the path is enough. *)
Fixpoint mkdir_parents (fuel : nat) (p : path) : M unit :=
  try_except (os_mkdir p)
    (fun e => match e with
              | FileNotFoundError _ =>
                  match fuel, p with
                  | S fuel', _ :: _ =>
                      mkdir_parents fuel' (parent p) ;;; mkdir_exist_ok p
                  | _, _ => raise e
                  end
              | _ => unless_is_dir p e
              end).

Definition mkdir_p (p : path) : M unit := mkdir_parents (length p) p.

(** [open(path, 'w', encoding='utf-8')]: creates or truncates. *)
Definition open_w (p : path) : M unit :=
  guarded (SysOpenW p) (fun w =>
    if is_dir (w_fs w) p
    then (Raise (OSError (strerror IsADirectory (SysOpenW p))), w)
    else if is_dir (w_fs w) (parent p)
    then (Ok tt, set_fs (<[p := File []]> (w_fs w)) w)
    else (Raise (FileNotFoundError (strerror NoSuchFile (SysOpenW p))), w)).

(** [file.write(data)] on the file opened at [p]. *)
Definition file_write (p : path) (data : pystr) : M unit :=
  guarded (SysWrite p data) (fun w =>
    match w_fs w !! p with
    | Some (File c) => (Ok tt, set_fs (<[p := File (c ++ data)]> (w_fs w)) w)
    | _ => (Raise (OSError (strerror BadDescriptor (SysWrite p data))), w)
    end).

(** [list(path.glob("*" + suffix))] *)
Definition glob_suffix (p : path) (suffix : pystr) : M (list path) :=
  guarded (SysGlob p) (fun w => (Ok (globbed (w_fs w) p suffix), w)).

(** [shutil.move(src, dst)] towards a name that is free: [os.rename];
    where that fails the source is copied and removed, a directory with
    [copytree], which makes the directories above the destination, unless
    the destination lies in the source. *)
Definition shutil_move (src dst : path) : M unit :=
  guarded (SysMove src dst) (fun w =>
    let missing := FileNotFoundError (strerror NoSuchFile (SysMove src dst)) in
    let blocked := OSError (strerror NotADirectory (SysMove src dst)) in
    match lookup_node (w_fs w) src with
    | None => (Raise missing, w)
    | Some (File _) =>
        match first_obstacle (w_fs w) (parent dst) with
        | None => (Ok tt, set_fs (renamed (w_fs w) src dst) w)
        | Some q =>
            match w_fs w !! q with
            | None => (Raise missing, w)
            | Some _ => (Raise blocked, w)
            end
        end
    | Some Dir =>
        if bool_decide (src `prefix_of` dst)
        then (Raise (OSError (strerror IntoItself (SysMove src dst))), w)
        else
          match first_obstacle (w_fs w) (parent dst) with
          | None => (Ok tt, set_fs (renamed (w_fs w) src dst) w)
          | Some q =>
              match w_fs w !! q with
              | None =>
                  (Ok tt,
                   set_fs (renamed (with_dirs (w_fs w) (parent dst)) src dst)
                     w)
              | Some _ => (Raise blocked, w)
              end
          end
    end).

End Ops.

End Sys.

(** ** extract_emails.py: [extract_emails_from_text] *)

Module Extract.

Import Re Emails Sys.
Local Open Scope py_scope.

(** One line of the enumerated listing: [f"{i}. {email}\n"]. *)
Definition report_line (ie : nat * pystr) : pystr :=
  str_of_nat ie.1 ++ lit ". " ++ ie.2 ++ [NL].

(** The four header writes, for the date the clock gave. *)
Definition report_header (input_file : path) (date : pystr) (n : nat)
    : pystr :=
  (lit "Email addresses extracted from: " ++ path_str input_file ++ [NL])
  ++ (lit "Extraction date: " ++ date ++ [NL])
  ++ (lit "Total unique emails found: " ++ str_of_nat n ++ [NL])
  ++ (repeat_char 45 50 ++ [NL; NL]).

(** The whole text of a finished report. *)
Definition report_text (input_file : path) (date : pystr)
    (emails : list pystr) : pystr :=
  report_header input_file date (length emails)
  ++ concat (map report_line (enumerate1 emails)).

Section Run.

Variable unicode_alnum : Z -> bool.
Variable unicode_lower : pystr -> pystr.
Variable os_fault : syscall -> option pystr.
Variable strerror : failure -> syscall -> pystr.
Variable strftime : pystr -> nat -> pystr.

(** The [if emails:] branch: directory, report file, console listing. *)
Definition write_report (input_file output_file : path)
    (emails : list pystr) : M unit :=
  mkdir_p os_fault strerror (parent output_file) ;;;
  open_w os_fault strerror output_file ;;;
  file_write os_fault strerror output_file
    (lit "Email addresses extracted from: " ++ path_str input_file ++ [NL]) ;;;
  date <- now_strftime strftime (lit "%Y-%m-%d %H:%M:%S") ;;
  file_write os_fault strerror output_file (lit "Extraction date: " ++ date ++ [NL]) ;;;
  file_write os_fault strerror output_file
    (lit "Total unique emails found: " ++ str_of_nat (length emails) ++ [NL]) ;;;
  file_write os_fault strerror output_file (repeat_char 45 50 ++ [NL; NL]) ;;;
  for_each (enumerate1 emails)
    (fun ie => file_write os_fault strerror output_file (report_line ie)) ;;;
  print (lit "Emails saved to: " ++ path_str output_file) ;;;
  print (NL :: lit "Extracted emails:") ;;;
  for_each (enumerate1 emails)
    (fun ie => print (lit "  " ++ str_of_nat ie.1 ++ lit ". " ++ ie.2)).

(** The body of the [try]: it yields the list [emails] as it stands when
    the block ends. *)
Definition extract_body (input_file output_file : path)
    : M (list pystr) :=
  print (lit "Reading file: " ++ path_str input_file) ;;;
  content <- read_text os_fault strerror input_file ;;
  let found_emails := find_emails unicode_alnum content in
  let emails := dedup unicode_lower found_emails in
  print (lit "Found " ++ str_of_nat (length found_emails)
         ++ lit " email addresses (" ++ str_of_nat (length emails)
         ++ lit " unique)") ;;;
  match emails with
  | _ :: _ => write_report input_file output_file emails
  | [] => print (lit "No email addresses found in the file.")
  end ;;;
  ret emails.

(** [extract_emails_from_text(input_file, output_file=None)]; the result
    is [(email_list, output_file_path)]. *)
Definition extract_emails_from_text (input_file : path)
    (output_file : option path) : M (list pystr * option pystr) :=
  found <- path_exists os_fault input_file ;;
  if negb found then
    print (lit "Error: Input file '" ++ path_str input_file
           ++ lit "' does not exist.") ;;;
    ret ([], None)
  else
    out <- match output_file with
           | None =>
               timestamp <- now_strftime strftime (lit "%Y%m%d_%H%M%S") ;;
               ret (parent input_file
                    ++ [lit "extracted_emails_" ++ timestamp ++ lit ".txt"])
           | Some o => ret o
           end ;;
    r <- try_except
           (emails <- extract_body input_file out ;; ret (Some emails))
           (fun e =>
              print (lit "Error processing file: " ++ exn_str e) ;;;
              ret None) ;;
    match r with
    | None => ret ([], None)
    | Some emails => ret (emails, Some (path_str out))
    end.

End Run.

(** *** Reading a report back

  The round-trip property of the specification speaks of re-parsing the
  report for its enumerated lines; the scripts contain no such reader.
  This one follows the report's layout: the listing is the block of
  lines [<number>. <text>] that ends the report. *)

Fixpoint span_digits (s : pystr) : pystr * pystr :=
  match s with
  | c :: r =>
      if is_digit c then let '(d, t) := span_digits r in (c :: d, t)
      else ([], s)
  | [] => ([], [])
  end.

(** The text of an enumerated line, [None] for any other line. *)
Definition enumerated_line (l : pystr) : option pystr :=
  match span_digits l with
  | (_ :: _, 46 :: 32 :: text) => Some text
  | _ => None
  end.

(** The longest prefix of [ls] made of enumerated lines, read. *)
Fixpoint leading_enumerated (ls : list pystr) : list pystr :=
  match ls with
  | l :: r =>
      match enumerated_line l with
      | Some text => text :: leading_enumerated r
      | None => []
      end
  | [] => []
  end.

(** The lines of a text that ends each line with a line feed. *)
Definition text_lines (s : pystr) : list pystr :=
  match reverse (split_lines s) with
  | [] :: r => reverse r
  | _ => split_lines s
  end.

Definition reparse_report (report : pystr) : list pystr :=
  reverse (leading_enumerated (reverse (text_lines report))).

(** Every line of the form [<number>. <text>], wherever it stands. *)
Definition reparse_all_lines (report : pystr) : list pystr :=
  omap enumerated_line (text_lines report).

End Extract.

(** ** scrape_webpage_title.py: [scrape_webpage_title] *)

Module Scraper.

Import Re Sys.
Local Open Scope py_scope.

(** [str(z)] for an integer. *)
Definition str_of_Z (z : Z) : pystr :=
  if z <? 0 then 45 :: str_of_nat (Z.to_nat (- z)) else str_of_nat (Z.to_nat z).

(** [s.replace(old, new)] for a non-empty [old]; [skip] counts the
    characters of the last occurrence still to be passed. *)
Fixpoint replace_from (old new : pystr) (skip : nat) (s : pystr) : pystr :=
  match s with
  | [] => []
  | c :: r =>
      match skip with
      | S k => replace_from old new k r
      | O =>
          if bool_decide (old `prefix_of` s)
          then new ++ replace_from old new (Nat.pred (length old)) r
          else c :: replace_from old new O r
      end
  end.

Definition str_replace (old new s : pystr) : pystr := replace_from old new O s.

(** The triple the function returns: title, output path, HTTP status. *)
Definition outcome : Type := option pystr * option pystr * option Z.

(** The lines the failure branches print. *)
Definition msg_timeout (timeout : Z) : pystr :=
  lit "Error: Request timed out after " ++ str_of_Z timeout ++ lit " seconds".
Definition msg_connection : pystr :=
  lit "Error: Connection failed. Check your internet connection or URL.".
Definition msg_request (e : exn) : pystr :=
  lit "Error: Request failed - " ++ exn_str e.
Definition msg_unexpected (e : exn) : pystr :=
  lit "Unexpected error: " ++ exn_str e.
Definition msg_http (status_code : Z) : pystr :=
  lit "Error: HTTP " ++ str_of_Z status_code
  ++ lit " - Failed to fetch the webpage".
Definition msg_no_title : pystr :=
  lit "Error: No title tag found in the webpage".
Definition msg_invalid_url (url : pystr) : pystr :=
  lit "Error: Invalid URL format: " ++ url.

Section Run.

Variable unicode_alnum : Z -> bool.
(** [str.isspace()] outside ASCII. *)
Variable unicode_space : Z -> bool.
Variable os_fault : syscall -> option pystr.
Variable strerror : failure -> syscall -> pystr.
Variable strftime : pystr -> nat -> pystr.
(** [urlparse(url)]: scheme and netloc, or the exception it raises. *)
Variable urlparse : pystr -> res (pystr * pystr).
(** [requests.get(url, headers=headers, timeout=timeout)] for the n-th
  request sent: the status code and text of the response, or the
  exception raised. *)
Variable http_get : pystr -> Z -> nat -> res (Z * pystr).
(** [re.search(title_pattern, text, re.IGNORECASE | re.DOTALL)]:
  group 1 of the first match. *)
Variable title_search : pystr -> option pystr.
(** [Path(__file__).parent] *)
Variable script_dir : path.

Definition is_space (c : Z) : bool :=
  ((9 <=? c) && (c <=? 13)) || ((28 <=? c) && (c <=? 32))
  || ((128 <=? c) && unicode_space c).

Fixpoint lstrip (s : pystr) : pystr :=
  match s with
  | c :: r => if is_space c then lstrip r else s
  | [] => []
  end.

(** [s.strip()] *)
Definition strip (s : pystr) : pystr :=
  reverse (lstrip (reverse (lstrip s))).

(** [re.sub(r'\s+', ' ', s)] *)
Fixpoint collapse_ws (in_run : bool) (s : pystr) : pystr :=
  match s with
  | [] => []
  | c :: r =>
      if is_space c
      then (if in_run then collapse_ws true r else 32 :: collapse_ws true r)
      else c :: collapse_ws false r
  end.

(** [len(s.split())] *)
Fixpoint count_words (in_word : bool) (s : pystr) : nat :=
  match s with
  | [] => O
  | c :: r =>
      if is_space c then count_words false r
      else ((if in_word then 0 else 1) + count_words true r)%nat
  end.

(** [re.sub(r'[^\w\-_\.]', '_', netloc)] *)
Definition safe_domain (netloc : pystr) : pystr :=
  map (fun c => if is_word unicode_alnum c || one_of "-_." c then c else 95)
      netloc.

(** Strip, squeeze white space, decode the four basic entities. *)
Definition clean_title (group1 : pystr) : pystr :=
  str_replace (lit "&quot;") [34]
    (str_replace (lit "&gt;") (lit ">")
       (str_replace (lit "&lt;") (lit "<")
          (str_replace (lit "&amp;") (lit "&")
             (collapse_ws false (strip group1))))).

Definition requests_get (url : pystr) (timeout : Z) : M (Z * pystr) :=
  fun w =>
    (http_get url timeout (length (w_requests w)),
     {| w_fs := w_fs w; w_console := w_console w;
        w_requests := w_requests w ++ [(url, timeout)];
        w_ticks := w_ticks w |}).

Definition lift_res {A} (r : res A) : M A := fun w => (r, w).

Definition save_title (url netloc title : pystr) (status_code : Z)
    (output_file : option path) : M outcome :=
  print (lit "Title found: " ++ title) ;;;
  out <- match output_file with
         | None =>
             timestamp <- now_strftime strftime (lit "%Y%m%d_%H%M%S") ;;
             ret (parent script_dir
                  ++ [lit "output";
                      lit "webpage_title_" ++ safe_domain netloc ++ lit "_"
                      ++ timestamp ++ lit ".txt"])
         | Some o => ret o
         end ;;
  mkdir_p os_fault strerror (parent out) ;;;
  open_w os_fault strerror out ;;;
  file_write os_fault strerror out (lit "Webpage Title Extraction Report" ++ [NL]) ;;;
  file_write os_fault strerror out (repeat_char 61 40 ++ [NL; NL]) ;;;
  file_write os_fault strerror out (lit "URL: " ++ url ++ [NL]) ;;;
  date <- now_strftime strftime (lit "%Y-%m-%d %H:%M:%S") ;;
  file_write os_fault strerror out (lit "Scraped on: " ++ date ++ [NL]) ;;;
  file_write os_fault strerror out (lit "HTTP Status: " ++ str_of_Z status_code ++ [NL]) ;;;
  file_write os_fault strerror out (lit "Domain: " ++ netloc ++ [NL]) ;;;
  file_write os_fault strerror out (repeat_char 45 40 ++ [NL; NL]) ;;;
  file_write os_fault strerror out (lit "Title: " ++ title ++ [NL; NL]) ;;;
  file_write os_fault strerror out
    (lit "Title length: " ++ str_of_nat (length title) ++ lit " characters"
     ++ [NL]) ;;;
  file_write os_fault strerror out
    (lit "Title word count: " ++ str_of_nat (count_words false title)
     ++ [NL]) ;;;
  print (lit "Title saved to: " ++ path_str out) ;;;
  ret (Some title, Some (path_str out), Some status_code).

(** The body of the [try]. *)
Definition scrape_body (url : pystr) (output_file : option path)
    (timeout : Z) : M outcome :=
  parsed_url <- lift_res (urlparse url) ;;
  let '(scheme, netloc) := parsed_url in
  match scheme, netloc with
  | _ :: _, _ :: _ =>
      print (lit "Scraping webpage: " ++ url) ;;;
      response <- requests_get url timeout ;;
      let '(status_code, text) := response in
      if status_code =? 200 then
        match title_search text with
        | Some group1 =>
            save_title url netloc (clean_title group1) status_code output_file
        | None =>
            print msg_no_title ;;;
            ret (None, None, Some status_code)
        end
      else
        print (msg_http status_code) ;;;
        ret (None, None, Some status_code)
  | _, _ =>
      print (msg_invalid_url url) ;;;
      ret (None, None, None)
  end.

(** The [except] clauses, in their order. *)
Definition scrape_handler (timeout : Z) (e : exn) : M outcome :=
  match e with
  | ReqTimeout _ | ReqConnectTimeout _ =>
      print (msg_timeout timeout) ;;;
      ret (None, None, None)
  | ReqConnectionError _ =>
      print msg_connection ;;;
      ret (None, None, None)
  | ReqOther _ =>
      print (msg_request e) ;;;
      ret (None, None, None)
  | OSError _ | FileNotFoundError _ | ValueError _ | OtherError _ =>
      print (msg_unexpected e) ;;;
      ret (None, None, None)
  end.

(** [scrape_webpage_title(url, output_file=None, timeout=10)] *)
Definition scrape_webpage_title (url : pystr) (output_file : option path)
    (timeout : Z) : M outcome :=
  try_except (scrape_body url output_file timeout) (scrape_handler timeout).

End Run.

End Scraper.

(** ** move_jpg_files.py: [move_jpg_files] *)

Module Mover.

Import Sys.
Local Open Scope py_scope.

Section Run.

Variable os_fault : syscall -> option pystr.
Variable strerror : failure -> syscall -> pystr.

(** One turn of the loop over [jpg_files]; the state is
    [(moved_count, errors)]. *)
Definition move_one (dest_path : path) (st : nat * list pystr)
    (jpg_file : path) : M (nat * list pystr) :=
  try_except
    (let dest_file := dest_path ++ [name jpg_file] in
     taken <- path_exists os_fault dest_file ;;
     if taken then
       print (lit "Warning: " ++ name jpg_file
              ++ lit " already exists in destination. Skipping...") ;;;
       ret st
     else
       shutil_move os_fault strerror jpg_file dest_file ;;;
       print (lit "Moved: " ++ name jpg_file) ;;;
       ret (S st.1, st.2))
    (fun e =>
       let error_msg :=
         lit "Error moving " ++ name jpg_file ++ lit ": " ++ exn_str e in
       print (lit "Error: " ++ error_msg) ;;;
       ret (st.1, st.2 ++ [error_msg])).

Fixpoint move_all (dest_path : path) (st : nat * list pystr)
    (jpg_files : list path) : M (nat * list pystr) :=
  match jpg_files with
  | [] => ret st
  | f :: r => st' <- move_one dest_path st f ;; move_all dest_path st' r
  end.

(** The body of the outer [try]. Only the four [glob] calls can raise
    there, before any file is counted: the handler below sees
    [moved_count = 0] and [errors = []]. *)
Definition move_body (source_path dest_path : path)
    : M (nat * list pystr) :=
  g1 <- glob_suffix os_fault source_path (lit ".jpg") ;;
  g2 <- glob_suffix os_fault source_path (lit ".JPG") ;;
  g3 <- glob_suffix os_fault source_path (lit ".jpeg") ;;
  g4 <- glob_suffix os_fault source_path (lit ".JPEG") ;;
  let jpg_files := g1 ++ g2 ++ g3 ++ g4 in
  match jpg_files with
  | [] =>
      print (lit "No .jpg files found in the source folder.") ;;;
      ret (O, [])
  | _ :: _ =>
      print (lit "Found " ++ str_of_nat (length jpg_files)
             ++ lit " image files to move...") ;;;
      st <- move_all dest_path (O, []) jpg_files ;;
      print (NL :: lit "Operation completed! Moved " ++ str_of_nat st.1
             ++ lit " files.") ;;;
      match st.2 with
      | _ :: _ =>
          print (lit "Encountered " ++ str_of_nat (length st.2)
                 ++ lit " errors.")
      | [] => ret tt
      end ;;;
      ret st
  end.

(** [move_jpg_files(source_folder, destination_folder)]; the result is
    [(moved_count, error_list)]. The [mkdir] stands before the [try]: an
    exception it raises reaches the caller. *)
Definition move_jpg_files (source_folder destination_folder : path)
    : M (nat * list pystr) :=
  found <- path_exists os_fault source_folder ;;
  if negb found then
    print (lit "Error: Source folder '" ++ path_str source_folder
           ++ lit "' does not exist.") ;;;
    ret (O, [lit "Source folder '" ++ path_str source_folder
             ++ lit "' does not exist."])
  else
    mkdir_p os_fault strerror destination_folder ;;;
    print (lit "Destination folder created/verified: "
           ++ path_str destination_folder) ;;;
    try_except
      (move_body source_folder destination_folder)
      (fun e =>
         let error_msg := lit "Unexpected error: " ++ exn_str e in
         print (lit "Error: " ++ error_msg) ;;;
         ret (O, [error_msg])).

End Run.

End Mover.

(** ** What a match is, stated without the search *)

Module ReSpec.

Import Re.

Section Accepts.

Variable unicode_alnum : Z -> bool.

(** [accepts its prev m rest]: at a position preceded by [prev], the items
    can consume exactly [m] when the text there is [m ++ rest]. *)
Inductive accepts : list item -> option Z -> pystr -> pystr -> Prop :=
| acc_nil prev rest : accepts [] prev [] rest
| acc_bnd its prev m rest :
    at_boundary unicode_alnum prev (head (m ++ rest)) = true ->
    accepts its prev m rest ->
    accepts (Bnd :: its) prev m rest
| acc_bol its m rest :
    accepts its None m rest ->
    accepts (Bol :: its) None m rest
| acc_eol its prev m rest :
    m ++ rest = [] \/ m ++ rest = [NL] ->
    accepts its prev m rest ->
    accepts (Eol :: its) prev m rest
| acc_eos its prev m rest :
    m ++ rest = [] ->
    accepts its prev m rest ->
    accepts (Eos :: its) prev m rest
| acc_lit c its prev m rest :
    accepts its (Some c) m rest ->
    accepts (Lit c :: its) prev (c :: m) rest
| acc_rep cls lo its prev run m rest :
    Forall (fun c => cls c = true) run ->
    (lo <= length run)%nat ->
    accepts its (last_char prev run) m rest ->
    accepts (Rep cls lo :: its) prev (run ++ m) rest.

End Accepts.

(** [local@domain.tld] with the given class for the last label. *)
Definition email_shape (tld : Z -> bool) (m : pystr) : Prop :=
  exists l d t,
    m = l ++ [Emails.AT] ++ d ++ [Emails.DOT] ++ t
    /\ l <> [] /\ Forall (fun c => Emails.local_cls c = true) l
    /\ d <> [] /\ Forall (fun c => Emails.domain_cls c = true) d
    /\ (2 <= length t)%nat /\ Forall (fun c => tld c = true) t.

End ReSpec.

(** ** Scanning for the longest delimited address

    A scan stated without the engine: left to right; at each position take
    the longest substring of the form [local-part@domain.tld] that passes
    a test of what stands before and after it; resume after it, or one
    character further where none starts. The test and the class of the
    top-level label are parameters. *)

Module LongestScan.

Import Emails.

(** Split at the first occurrence of [c]. *)
Fixpoint split_first (c : Z) (s : pystr) : option (pystr * pystr) :=
  match s with
  | [] => None
  | x :: r =>
      if x =? c then Some ([], r)
      else match split_first c r with
           | Some (a, b) => Some (x :: a, b)
           | None => None
           end
  end.

(** Split at the last occurrence of [c]. *)
Definition split_last (c : Z) (s : pystr) : option (pystr * pystr) :=
  match split_first c (reverse s) with
  | Some (a, b) => Some (reverse b, reverse a)
  | None => None
  end.

Definition nonempty (s : pystr) : bool :=
  match s with [] => false | _ => true end.

(** [m] reads [local@domain.tld]: the local part ends at the only [@],
    the top-level label starts after the last dot. *)
Definition has_email_form (tld : Z -> bool) (m : pystr) : bool :=
  match split_first AT m with
  | Some (l, r) =>
      match split_last DOT r with
      | Some (d, t) =>
          nonempty l && forallb local_cls l
          && nonempty d && forallb domain_cls d
          && (2 <=? length t)%nat && forallb tld t
      | None => false
      end
  | None => false
  end.

(** The longest of the prefixes of [s] of length at most [n] that
    satisfies [P]. *)
Fixpoint longest_prefix (P : pystr -> bool) (n : nat) (s : pystr)
    : option pystr :=
  if P (take n s) then Some (take n s)
  else match n with
       | O => None
       | S n' => longest_prefix P n' s
       end.

Section Scan.

(** [delimited prev s m]: the prefix [m] of [s], which follows [prev], is
    a delimited address. *)
Variable delimited : option Z -> pystr -> pystr -> bool.

Definition match_at (prev : option Z) (s : pystr) : option pystr :=
  longest_prefix (delimited prev s) (length s) s.

Fixpoint scan (skip : nat) (prev : option Z) (s : pystr)
    {struct s} : list pystr :=
  match skip with
  | S k =>
      match s with
      | [] => []
      | c :: s' => scan k (Some c) s'
      end
  | O =>
      match match_at prev s with
      | Some m =>
          m :: match s with
               | [] => []
               | c :: s' => scan (Nat.pred (length m)) (Some c) s'
               end
      | None =>
          match s with
          | [] => []
          | c :: s' => scan O (Some c) s'
          end
      end
  end.

End Scan.

End LongestScan.

(** ** The discovery pattern read as a scan

    What [\b local@domain.label \b] asks of a match: the form, and the
    assertion [\b] at both ends. [\b] holds between two positions of which
    exactly one holds a word character; it is not the demand that no word
    character stands outside the match. *)

Module PatternScan.

Import Re LongestScan.

Section Pattern.

Variable unicode_alnum : Z -> bool.
Variable tld : Z -> bool.

Definition bounded_email (prev : option Z) (s m : pystr) : bool :=
  has_email_form tld m
  && at_boundary unicode_alnum prev (head s)
  && at_boundary unicode_alnum (last_char prev m) (head (drop (length m) s)).

Definition boundary_scan : nat -> option Z -> pystr -> list pystr :=
  scan bounded_email.

Definition boundary_discovery (text : pystr) : list pystr :=
  boundary_scan O None text.

End Pattern.

End PatternScan.

(** ** Discovery as the specification words it

    A second definition of the discovery step, written from the
    specification's contract and not from the regular expression: the
    maximal substrings of the form [local-part@domain.tld], left to right
    and without overlap, where a match must not be immediately preceded or
    followed by a letter, digit, or underscore. The class of the top-level
    label is a parameter: the specification asks for letters. *)

Module DiscoverySpec.

Import Re LongestScan.

Section Spec.

Variable unicode_alnum : Z -> bool.
Variable tld : Z -> bool.

(** [m], a prefix of [s] that follows [prev], is an address with no
    letter, digit or underscore immediately before or after it. *)
Definition delimited_email (prev : option Z) (s m : pystr) : bool :=
  has_email_form tld m
  && negb (word_opt unicode_alnum prev)
  && negb (word_opt unicode_alnum (head (drop (length m) s))).

Definition spec_scan : nat -> option Z -> pystr -> list pystr :=
  scan delimited_email.

Definition spec_discovery (text : pystr) : list pystr :=
  spec_scan O None text.

End Spec.

End DiscoverySpec.

(** ** Concrete instances for the examples *)

Module Demo.

Import Sys.

(** No letters or digits outside ASCII, lower-casing leaves other
    scripts alone, the system refuses nothing, the clock stands still. *)
Definition ascii_only (c : Z) : bool := false.
Definition keep_case (s : pystr) : pystr := s.
Definition no_fault (call : syscall) : option pystr := None.
(** The file names an [OSError] carries, as [str(e)] prints them. *)
Definition quoted (p : path) : pystr := lit "'" ++ path_str p ++ lit "'".
Definition call_paths (call : syscall) : pystr :=
  match call with
  | SysStat p | SysRead p | SysMkdir p | SysOpenW p | SysWrite p _
  | SysGlob p => quoted p
  | SysMove a b => quoted a ++ lit " -> " ++ quoted b
  end.
Definition plain_text (f : failure) (call : syscall) : pystr :=
  match f with
  | NoSuchFile =>
      lit "[Errno 2] No such file or directory: " ++ call_paths call
  | FileExists => lit "[Errno 17] File exists: " ++ call_paths call
  | NotADirectory => lit "[Errno 20] Not a directory: " ++ call_paths call
  | IsADirectory => lit "[Errno 21] Is a directory: " ++ call_paths call
  | BadDescriptor => lit "[Errno 9] Bad file descriptor"
  | IntoItself =>
      match call with
      | SysMove a b =>
          lit "Cannot move a directory " ++ quoted a ++ lit " into itself "
          ++ quoted b ++ lit "."
      | _ => lit "[Errno 22] Invalid argument: " ++ call_paths call
      end
  end.
Definition frozen_clock (fmt : pystr) (n : nat) : pystr :=
  lit "20240101_120000".

Definition data_dir : path := [lit "data"].
Definition notes_txt : path := [lit "data"; lit "notes.txt"].


Definition world_with (content : pystr) : world :=
  {| w_fs := <[notes_txt := File content]> (<[data_dir := Dir]> ∅);
     w_console := []; w_requests := []; w_ticks := O |}.

(** A stand-in for [urlparse]: a URL is taken apart only when it starts
    with ["https://"]. *)
Definition demo_urlparse (url : pystr) : res (pystr * pystr) :=
  if bool_decide (lit "https://" `prefix_of` url)
  then Ok (lit "https", drop 8 url) else Ok ([], []).

Definition demo_http_get (url : pystr) (timeout : Z) (n : nat)
    : res (Z * pystr) :=
  Raise (ReqTimeout (lit "read timed out")).

Definition demo_title_search (text : pystr) : option pystr := None.

End Demo.

(** * Properties *)

Module ReFacts.

Import Re ReSpec.

Section Engine.

Variable ua : Z -> bool.

Lemma last_char_cons prev c run :
  last_char (Some c) run = last_char prev (c :: run).
Proof.
  unfold last_char. destruct run as [|d run]; [done|].
  rewrite last_cons_cons.
  destruct (last (d :: run)) eqn:E; [done|].
  by apply last_None in E.
Qed.

Lemma last_char_app prev r1 r2 :
  last_char prev (r1 ++ r2) = last_char (last_char prev r1) r2.
Proof.
  revert prev. induction r1 as [|c r1 IH]; intros prev; [done|].
  rewrite <- app_comm_cons, <- !last_char_cons. apply IH.
Qed.

Lemma rep_greedy_sound cls k lo prev s m :
  rep_greedy cls k lo prev s = Some m ->
  exists run m' s',
    s = run ++ s' /\ m = run ++ m'
    /\ Forall (fun c => cls c = true) run /\ (lo <= length run)%nat
    /\ k (last_char prev run) s' = Some m'.
Proof.
  revert lo prev m. induction s as [|c s IH]; intros lo prev m H.
  - simpl in H. destruct lo; [|done].
    exists [], m, []. repeat split; auto.
  - simpl in H.
    assert (Hstop : match lo with O => k prev (c :: s) | S _ => None end = Some m ->
      exists run m' s', c :: s = run ++ s' /\ m = run ++ m'
        /\ Forall (fun c => cls c = true) run /\ (lo <= length run)%nat
        /\ k (last_char prev run) s' = Some m').
    { intros Hk. destruct lo; [|done].
      exists [], m, (c :: s). repeat split; auto. }
    destruct (cls c) eqn:Hc; [|auto].
    destruct (rep_greedy cls k (Nat.pred lo) (Some c) s) as [m1|] eqn:Hr; [|auto].
    inversion H; subst m.
    destruct (IH _ _ _ Hr) as (run & m' & s' & -> & -> & Hall & Hlo & Hk).
    exists (c :: run), m', s'. repeat split; auto.
    + simpl. lia.
    + by rewrite <- last_char_cons.
Qed.

Lemma rep_greedy_complete cls k lo prev run s' m' :
  Forall (fun c => cls c = true) run -> (lo <= length run)%nat ->
  k (last_char prev run) s' = Some m' ->
  is_Some (rep_greedy cls k lo prev (run ++ s')).
Proof.
  revert lo prev. induction run as [|c run IH]; intros lo prev Hall Hlo Hk.
  - simpl in Hlo. assert (lo = O) as -> by lia.
    change (last_char prev []) with prev in Hk. simpl.
    destruct s' as [|c s']; simpl; [by rewrite Hk|].
    destruct (cls c); [|by rewrite Hk].
    destruct (rep_greedy cls k 0 (Some c) s'); [done|by rewrite Hk].
  - inversion Hall as [|? ? Hc Hall']; subst. simpl. rewrite Hc.
    destruct (IH (Nat.pred lo) (Some c)) as [m1 Hm1]; auto.
    + simpl in Hlo. lia.
    + by rewrite last_char_cons with (prev := prev).
    + by rewrite Hm1.
Qed.

Lemma match_items_sound its prev s m :
  match_items ua its prev s = Some m ->
  exists rest, s = m ++ rest /\ accepts ua its prev m rest.
Proof.
  revert prev s m. induction its as [|it its IH]; intros prev s m H.
  - simpl in H. inversion H; subst. exists s. split; [done|constructor].
  - destruct it; simpl in H.
    + destruct (at_boundary ua prev (head s)) eqn:Hb; [|done].
      destruct (IH _ _ _ H) as (rest & -> & Hacc).
      exists rest. split; [done|]. by constructor.
    + destruct prev; [done|].
      destruct (IH _ _ _ H) as (rest & -> & Hacc).
      exists rest. split; [done|]. by constructor.
    + destruct s as [|c [|c' s]]; [| |done].
      * destruct (IH _ _ _ H) as (rest & Hs & Hacc).
        exists rest. split; [done|]. constructor; auto.
      * destruct (Z.eqb_spec c NL) as [->|]; [|done].
        destruct (IH _ _ _ H) as (rest & Hs & Hacc).
        exists rest. split; [done|]. constructor; auto.
    + destruct s; [|done].
      destruct (IH _ _ _ H) as (rest & Hs & Hacc).
      exists rest. split; [done|]. constructor; auto.
    + destruct s as [|c' s]; [done|].
      destruct (Z.eqb_spec c' c) as [->|]; [|done].
      destruct (match_items ua its (Some c) s) as [m1|] eqn:Hm; [|done].
      simpl in H. inversion H; subst m.
      destruct (IH _ _ _ Hm) as (rest & -> & Hacc).
      exists rest. split; [done|]. by constructor.
    + apply rep_greedy_sound in H.
      destruct H as (run & m' & s' & -> & -> & Hall & Hlo & Hk).
      destruct (IH _ _ _ Hk) as (rest & -> & Hacc).
      exists rest. split; [by rewrite app_assoc|]. by constructor.
Qed.

Lemma match_items_complete its prev m rest :
  accepts ua its prev m rest ->
  is_Some (match_items ua its prev (m ++ rest)).
Proof.
  induction 1 as [prev rest|its prev m rest Hb _ IH|its m rest _ IH
                 |its prev m rest He _ IH|its prev m rest He _ IH
                 |c its prev m rest _ IH|cls lo its prev run m rest Hall Hlo _ IH];
    simpl.
  - done.
  - by rewrite Hb.
  - done.
  - destruct He as [He|He]; rewrite He in *; simpl; done.
  - rewrite He in *. done.
  - rewrite Z.eqb_refl. destruct IH as [m1 ->]. done.
  - destruct IH as [m1 Hm1]. rewrite <- app_assoc.
    by eapply rep_greedy_complete.
Qed.

(** Every string [findall] returns is a match of the pattern at some
    position of the text. *)
Lemma findall_from_sound pat skip prev s e :
  e ∈ findall_from ua pat skip prev s ->
  exists prev' s', match_items ua pat prev' s' = Some e.
Proof.
  revert skip prev. induction s as [|c s IH]; intros skip prev He.
  - destruct skip; simpl in He; [|by apply elem_of_nil in He].
    destruct (match_items ua pat prev []) eqn:Hm; [|by apply elem_of_nil in He].
    apply list_elem_of_singleton in He. subst. eauto.
  - destruct skip; simpl in He; [|eauto].
    destruct (match_items ua pat prev (c :: s)) eqn:Hm; [|eauto].
    apply elem_of_cons in He. destruct He as [->|He]; eauto.
Qed.

End Engine.

End ReFacts.

(** ** The two patterns of extract_emails.py *)

Module PatternFacts.

Import Re ReSpec ReFacts Emails.

Section Patterns.

Variable ua : Z -> bool.

(** The part both patterns share, [tld] being the class of the last
    label and [tail] what follows it. *)
Definition core (tld : Z -> bool) (tail : list item) : list item :=
  Rep local_cls 1 :: Lit AT :: Rep domain_cls 1 :: Lit DOT
  :: Rep tld 2 :: tail.

Lemma core_accepts_inv tld tail prev m rest :
  accepts ua (core tld tail) prev m rest ->
  exists l d t m',
    m = l ++ [AT] ++ d ++ [DOT] ++ t ++ m'
    /\ l <> [] /\ Forall (fun c => local_cls c = true) l
    /\ d <> [] /\ Forall (fun c => domain_cls c = true) d
    /\ (2 <= length t)%nat /\ Forall (fun c => tld c = true) t
    /\ accepts ua tail (last_char (Some DOT) t) m' rest.
Proof.
  unfold core. intros H.
  inversion H as [| | | | | |? ? ? ? l m1 ? Hl Hll H1]; subst; clear H.
  inversion H1 as [| | | | |? ? ? m2 ? H2|]; subst; clear H1.
  inversion H2 as [| | | | | |? ? ? ? d m3 ? Hd Hdl H3]; subst; clear H2.
  inversion H3 as [| | | | |? ? ? m4 ? H4|]; subst; clear H3.
  inversion H4 as [| | | | | |? ? ? ? t m5 ? Ht Htl H5]; subst; clear H4.
  exists l, d, t, m5. repeat split; auto.
  - intros ->. simpl in Hll. lia.
  - intros ->. simpl in Hdl. lia.
Qed.

Lemma core_accepts tld tail prev l d t m' rest :
  l <> [] -> Forall (fun c => local_cls c = true) l ->
  d <> [] -> Forall (fun c => domain_cls c = true) d ->
  (2 <= length t)%nat -> Forall (fun c => tld c = true) t ->
  accepts ua tail (last_char (Some DOT) t) m' rest ->
  accepts ua (core tld tail) prev (l ++ [AT] ++ d ++ [DOT] ++ t ++ m') rest.
Proof.
  intros Hl Hlc Hd Hdc Ht Htc Htail. unfold core.
  apply acc_rep; [done|destruct l; simpl; [done|lia]|].
  apply (acc_lit ua AT).
  apply acc_rep; [done|destruct d; simpl; [done|lia]|].
  apply (acc_lit ua DOT).
  apply acc_rep; [done|done|].
  replace (last_char (last_char (Some DOT) []) t)
    with (last_char (Some DOT) t) by done.
  exact Htail.
Qed.

Lemma last_char_Forall (P : Z -> Prop) prev run :
  Forall P run -> run <> [] -> exists c, last_char prev run = Some c /\ P c.
Proof.
  intros Hall Hne. unfold last_char.
  destruct (last run) as [c|] eqn:E.
  - exists c. split; [done|].
    rewrite Forall_forall in Hall. apply Hall.
    apply last_Some in E as [l' ->]. set_solver.
  - by apply last_None in E.
Qed.

Lemma strict_tld_is_tld c : strict_tld_cls c = true -> tld_cls c = true.
Proof.
  unfold strict_tld_cls, tld_cls. intros H.
  apply orb_true_iff in H as [H|H]; rewrite H; simpl;
    [apply orb_true_r|done].
Qed.

Lemma tld_not_bar_is_strict c :
  tld_cls c = true -> c <> BAR -> strict_tld_cls c = true.
Proof.
  unfold strict_tld_cls, tld_cls, one_of, BAR.
  change (lit "|") with [124]. intros H Hne.
  destruct (is_upper c), (is_lower c); simpl in *; try done.
  destruct (Z.eqb_spec c 124); simpl in *; [lia|done].
Qed.

Lemma strict_tld_is_word c : strict_tld_cls c = true -> is_word ua c = true.
Proof.
  unfold strict_tld_cls, is_word. intros H.
  apply orb_true_iff in H as [H|H]; rewrite H; simpl; [|done].
  by rewrite orb_true_r.
Qed.

(** What the discovery pattern matches has the shape
    [local@domain.tld], the last label over [[A-Z|a-z]]. *)
Lemma email_pattern_shape prev s m :
  match_items ua email_pattern prev s = Some m -> email_shape tld_cls m.
Proof.
  intros H. apply match_items_sound in H as (rest & -> & Hacc).
  inversion Hacc as [|? ? ? ? Hb Hcore| | | | |]; subst; clear Hacc.
  apply (core_accepts_inv tld_cls [Bnd]) in Hcore
    as (l & d & t & m' & -> & Hl & Hlc & Hd & Hdc & Ht & Htc & Htail).
  inversion Htail as [|? ? ? ? Hb' Hnil| | | | |]; subst; clear Htail.
  inversion Hnil; subst.
  exists l, d, t. rewrite app_nil_r. repeat split; auto.
Qed.

(** A string of the strict shape matches the strict pattern. *)
Lemma strict_shape_matches m :
  email_shape strict_tld_cls m ->
  is_Some (re_match ua strict_pattern m).
Proof.
  intros (l & d & t & -> & Hl & Hlc & Hd & Hdc & Ht & Htc).
  unfold re_match.
  pose proof (match_items_complete ua strict_pattern None
                (l ++ [AT] ++ d ++ [DOT] ++ t ++ []) []) as Hc.
  rewrite !app_nil_r in Hc. apply Hc.
  apply acc_bol.
  replace (l ++ [AT] ++ d ++ [DOT] ++ t)
    with (l ++ [AT] ++ d ++ [DOT] ++ t ++ []) by by rewrite app_nil_r.
  apply core_accepts; auto.
  apply acc_eol; [by left|constructor].
Qed.

Lemma shape_without_bar m :
  email_shape tld_cls m -> BAR ∉ m -> email_shape strict_tld_cls m.
Proof.
  intros (l & d & t & -> & Hl & Hlc & Hd & Hdc & Ht & Htc) Hbar.
  exists l, d, t. repeat split; auto.
  rewrite Forall_forall in *. intros c Hc.
  apply tld_not_bar_is_strict; [by apply Htc|].
  intros ->. apply Hbar. set_solver.
Qed.

(** Whatever discovery returns and holds no bar passes validation. *)
Lemma found_without_bar_valid content e :
  e ∈ find_emails ua content -> BAR ∉ e -> strict_ok ua e = true.
Proof.
  intros He Hbar. unfold find_emails, re_findall in He.
  apply findall_from_sound in He as (prev' & s' & Hm).
  apply email_pattern_shape in Hm.
  unfold strict_ok. apply bool_decide_eq_true.
  apply strict_shape_matches. by apply shape_without_bar.
Qed.

(** The whole of [s] matches discovery and holds no bar: it matches the
    strict pattern. *)
Lemma fullmatch_discovery_strict s :
  is_Some (re_fullmatch ua email_pattern s) -> BAR ∉ s ->
  is_Some (re_match ua strict_pattern s).
Proof.
  intros [m Hm] Hbar. unfold re_fullmatch in Hm.
  apply match_items_sound in Hm as (rest & -> & Hacc).
  simpl in Hacc.
  inversion Hacc as [|? ? ? ? Hb Hcore| | | | |]; subst; clear Hacc.
  apply (core_accepts_inv tld_cls [Bnd; Eos]) in Hcore
    as (l & d & t & m' & -> & Hl & Hlc & Hd & Hdc & Ht & Htc & Htail).
  inversion Htail as [|? ? ? ? Hb' Heos| | | | |]; subst; clear Htail.
  inversion Heos as [| | | |? ? ? ? Hnil Hn| |]; subst; clear Heos.
  inversion Hn; subst. simpl in Hnil. subst rest.
  rewrite !app_nil_r in *.
  apply strict_shape_matches. apply shape_without_bar; [|done].
  exists l, d, t. repeat split; auto.
Qed.

(** [s] matches the strict pattern, starts with a word character and
    does not end with a line feed: the whole of [s] matches discovery. *)
Lemma strict_fullmatch_discovery s :
  is_Some (re_match ua strict_pattern s) ->
  word_opt ua (head s) = true -> last s <> Some NL ->
  is_Some (re_fullmatch ua email_pattern s).
Proof.
  intros [m Hm] Hw Hnl. unfold re_match in Hm.
  apply match_items_sound in Hm as (rest & -> & Hacc).
  inversion Hacc as [| |? ? ? Hcore| | | |]; subst; clear Hacc.
  apply (core_accepts_inv strict_tld_cls [Eol]) in Hcore
    as (l & d & t & m' & -> & Hl & Hlc & Hd & Hdc & Ht & Htc & Htail).
  inversion Htail as [| | |? ? ? ? He Hn| | |]; subst; clear Htail.
  inversion Hn; subst. simpl in He.
  destruct He as [->| ->].
  2:{ exfalso. apply Hnl. rewrite !app_assoc. apply last_snoc. }
  rewrite !app_nil_r in *.
  unfold re_fullmatch.
  pose proof (match_items_complete ua (email_pattern ++ [Eos]) None
                (l ++ [AT] ++ d ++ [DOT] ++ t ++ []) []) as Hc.
  rewrite !app_nil_r in Hc. apply Hc. simpl.
  apply acc_bnd.
  { rewrite !app_nil_r. unfold at_boundary.
    change (word_opt ua (head (l ++ [AT] ++ d ++ [DOT] ++ t)))
      with (word_opt ua (head (l ++ AT :: d ++ DOT :: t))) in Hw.
    by rewrite Hw. }
  replace (l ++ AT :: d ++ DOT :: t)
    with (l ++ [AT] ++ d ++ [DOT] ++ t ++ []) by by rewrite app_nil_r.
  apply (core_accepts tld_cls [Bnd; Eos]); auto.
  { eapply Forall_impl; [exact Htc|]. intros c. apply strict_tld_is_tld. }
  destruct (last_char_Forall (fun c => strict_tld_cls c = true) (Some DOT) t)
    as (c & Hc1 & Hc2); [done|by intros ->; simpl in Ht; lia|].
  rewrite Hc1.
  apply acc_bnd.
  { simpl. unfold at_boundary. simpl. by rewrite strict_tld_is_word. }
  apply acc_eos; [done|constructor].
Qed.

End Patterns.

End PatternFacts.

(** ** Deduplication and validation *)

Module PipelineFacts.

Import Re ReSpec ReFacts Emails PatternFacts.

Section Dedup.

Variable ul : pystr -> pystr.

(** The entries of [l] whose lower-cased form is not in [seen] and did
    not occur earlier in [l]. *)
Fixpoint first_seen (seen : list pystr) (l : list pystr) : list pystr :=
  match l with
  | [] => []
  | e :: r =>
      if decide (lower ul e ∈ seen) then first_seen seen r
      else e :: first_seen (lower ul e :: seen) r
  end.

Lemma first_seen_ext s1 s2 l :
  (forall k, k ∈ s1 <-> k ∈ s2) -> first_seen s1 l = first_seen s2 l.
Proof.
  revert s1 s2. induction l as [|x l IH]; intros s1 s2 Heq; simpl; [done|].
  destruct (decide (lower ul x ∈ s1)) as [H1|H1];
    destruct (decide (lower ul x ∈ s2)) as [H2|H2].
  - by apply IH.
  - exfalso. apply H2. by apply Heq.
  - exfalso. apply H1. by apply Heq.
  - f_equal. apply IH. intros k. rewrite !elem_of_cons, Heq. done.
Qed.

Lemma dedup_fold (l acc : list pystr) (seen : gset pystr) :
  (forall k, k ∈ seen <-> k ∈ lower ul <$> acc) ->
  (fold_left (dedup_step ul) l (acc, seen)).1
  = acc ++ first_seen (lower ul <$> acc) l.
Proof.
  revert acc seen. induction l as [|e l IH]; intros acc seen Hinv; simpl.
  - by rewrite app_nil_r.
  - unfold dedup_step at 2. simpl.
    destruct (decide (lower ul e ∈ seen)) as [Hin|Hnin].
    + rewrite decide_True by by apply Hinv. by apply IH.
    + rewrite decide_False by (by rewrite <- Hinv).
      rewrite (IH (acc ++ [e]) (seen ∪ {[lower ul e]})).
      * rewrite <- app_assoc. simpl. f_equal. f_equal.
        apply first_seen_ext. intros k. rewrite fmap_app. set_solver.
      * intros k. rewrite fmap_app. set_solver.
Qed.

Lemma dedup_first_seen l : dedup ul l = first_seen [] l.
Proof.
  unfold dedup. rewrite (dedup_fold l [] ∅); [done|set_solver].
Qed.



Lemma first_seen_sublist seen l : first_seen seen l `sublist_of` l.
Proof.
  revert seen. induction l as [|x l IH]; intros seen; simpl; [done|].
  destruct (decide (lower ul x ∈ seen)).
  - by apply sublist_cons.
  - by apply sublist_skip.
Qed.



End Dedup.

Section Validate.

Variable ua : Z -> bool.

Lemma validate_fold l v i :
  fold_left (validate_step ua) l (v, i)
  = (v ++ filter (fun e => strict_ok ua e = true) l,
     i ++ filter (fun e => ~ strict_ok ua e = true) l).
Proof.
  revert v i. induction l as [|e l IH]; intros v i; simpl.
  - by rewrite !app_nil_r.
  - unfold validate_step at 2. simpl.
    destruct (strict_ok ua e) eqn:He.
    + rewrite IH. rewrite filter_cons_True by done.
      rewrite filter_cons_False by (intros H; by apply H).
      by rewrite <- !app_assoc.
    + rewrite IH. rewrite filter_cons_False by congruence.
      rewrite filter_cons_True by congruence.
      by rewrite <- !app_assoc.
Qed.

End Validate.

End PipelineFacts.

(** ** Paths and trees *)

Module TreeFacts.

Import Sys.

Lemma ancestors_prefix (p q : path) :
  q ∈ ancestors_and_self p -> q `prefix_of` p /\ q <> [].
Proof.
  unfold ancestors_and_self. intros Hin.
  apply list_elem_of_fmap in Hin as (n & -> & Hn).
  apply elem_of_seq in Hn. split; [apply prefix_take|].
  destruct p as [|c p]; simpl in *; [lia|].
  destruct n; [lia|done].
Qed.

Lemma with_dirs_lookup fs (p q : path) :
  q ∈ ancestors_and_self p -> with_dirs fs p !! q = Some Dir.
Proof.
  unfold with_dirs. generalize (ancestors_and_self p). intros l.
  induction l as [|x l IH]; intros Hin; simpl.
  - by apply elem_of_nil in Hin.
  - destruct (decide (x = q)) as [->|Hne]; [apply lookup_insert_eq|].
    rewrite lookup_insert_ne by done. apply IH.
    apply elem_of_cons in Hin as [Hin|Hin]; [congruence|done].
Qed.


Lemma with_dirs_lookup_ne fs (p q : path) :
  q ∉ ancestors_and_self p -> with_dirs fs p !! q = fs !! q.
Proof.
  unfold with_dirs. generalize (ancestors_and_self p). intros l.
  induction l as [|x l IH]; intros Hin; simpl; [done|].
  rewrite lookup_insert_ne by set_solver. apply IH. set_solver.
Qed.

Lemma prefix_in_ancestors (p q : path) :
  q <> [] -> q `prefix_of` p -> q ∈ ancestors_and_self p.
Proof.
  intros Hne [k ->]. unfold ancestors_and_self.
  apply list_elem_of_fmap. exists (length q). split.
  - by rewrite take_app_length.
  - apply elem_of_seq. rewrite length_app.
    destruct q; [done|]. simpl. lia.
Qed.

Lemma parent_prefix (p : path) : parent p `prefix_of` p.
Proof.
  unfold parent. induction p as [|c p IH]; [done|].
  destruct p as [|d p]; [apply prefix_nil|].
  change (removelast (c :: d :: p)) with (c :: removelast (d :: p)).
  by apply prefix_cons.
Qed.


Lemma parent_snoc (p : path) (x : pystr) : parent (p ++ [x]) = p.
Proof. apply removelast_last. Qed.

Lemma name_snoc (p : path) (x : pystr) : name (p ++ [x]) = x.
Proof. unfold name. by rewrite last_snoc. Qed.

Lemma path_split (f : path) : f <> [] -> f = parent f ++ [name f].
Proof.
  intros Hne. destruct (exists_last Hne) as (p & x & ->).
  by rewrite parent_snoc, name_snoc.
Qed.

Lemma lookup_node_snoc fs (p : path) (x : pystr) :
  lookup_node fs (p ++ [x]) = fs !! (p ++ [x]).
Proof. by destruct p. Qed.

Lemma proper_prefix_parent (p q : path) :
  q `prefix_of` p -> q <> p -> q `prefix_of` parent p.
Proof.
  intros [k ->] Hne. unfold parent.
  destruct k as [|c k]; [by rewrite app_nil_r in Hne|].
  rewrite removelast_app by done. by apply prefix_app_r.
Qed.

(** The entries on the way to [p] are those on the way to its parent,
    and [p]. *)
Lemma ancestors_snoc (p : path) (x : pystr) :
  ancestors_and_self (p ++ [x]) = ancestors_and_self p ++ [p ++ [x]].
Proof.
  unfold ancestors_and_self. rewrite length_app. simpl.
  replace (length p + 1)%nat with (S (length p)) by lia.
  rewrite seq_S, map_app. simpl. f_equal.
  - apply map_ext_in. intros n Hn. apply in_seq in Hn.
    rewrite take_app_le by lia. done.
  - by rewrite firstn_all2 by (rewrite length_app; simpl; lia).
Qed.

Lemma ancestors_parent (p q : path) :
  p <> [] ->
  q ∈ ancestors_and_self p <-> q ∈ ancestors_and_self (parent p) \/ q = p.
Proof.
  intros Hne. rewrite (path_split p Hne) at 1. rewrite ancestors_snoc.
  rewrite elem_of_app, list_elem_of_singleton.
  by rewrite <- (path_split p Hne).
Qed.

Lemma is_dir_lookup fs (q : path) :
  q <> [] -> is_dir fs q = true <-> fs !! q = Some Dir.
Proof.
  intros Hne. unfold is_dir, lookup_node. destruct q as [|c q]; [done|].
  destruct (fs !! (c :: q)) as [[x|]|]; split; done.
Qed.

Lemma first_obstacle_None fs (p : path) :
  first_obstacle fs p = None
  <-> forall q, q ∈ ancestors_and_self p -> fs !! q = Some Dir.
Proof.
  unfold first_obstacle. split.
  - intros Hf q Hq.
    pose proof (find_none _ _ Hf q (proj1 (list_elem_of_In _ _) Hq)) as Hd.
    apply negb_false_iff in Hd. apply is_dir_lookup in Hd; [done|].
    by apply ancestors_prefix in Hq as [_ Hq].
  - intros Hall.
    destruct (find _ _) as [q|] eqn:Hf; [|done].
    apply find_some in Hf as [Hin Hd]. apply list_elem_of_In in Hin.
    apply negb_true_iff in Hd.
    pose proof (Hall q Hin) as Hq.
    apply is_dir_lookup in Hq; [congruence|].
    by apply ancestors_prefix in Hin as [_ Hin].
Qed.

Lemma with_dirs_all_dirs fs (p : path) :
  (forall q, q ∈ ancestors_and_self p -> fs !! q = Some Dir) ->
  with_dirs fs p = fs.
Proof.
  intros Hall. apply map_eq. intros q.
  destruct (decide (q ∈ ancestors_and_self p)) as [Hin|Hnin].
  - rewrite with_dirs_lookup by done. by rewrite Hall.
  - by apply with_dirs_lookup_ne.
Qed.

Lemma with_dirs_step fs (p : path) :
  p <> [] -> <[p := Dir]> (with_dirs fs (parent p)) = with_dirs fs p.
Proof.
  intros Hne. apply map_eq. intros q.
  destruct (decide (q = p)) as [->|Hqp].
  - rewrite lookup_insert_eq. symmetry. apply with_dirs_lookup.
    by apply prefix_in_ancestors.
  - rewrite lookup_insert_ne by done.
    destruct (decide (q ∈ ancestors_and_self (parent p))) as [Hin|Hnin].
    + rewrite !with_dirs_lookup; [done| |done].
      apply ancestors_parent; auto.
    + rewrite !with_dirs_lookup_ne; [done| |done].
      intros Hin. apply ancestors_parent in Hin as [Hin| ->]; done.
Qed.

Lemma with_dirs_parent fs (p : path) :
  with_dirs (with_dirs fs (parent p)) p = with_dirs fs p.
Proof.
  apply map_eq. intros q.
  destruct (decide (q ∈ ancestors_and_self p)) as [Hin|Hnin].
  - by rewrite !with_dirs_lookup.
  - rewrite (with_dirs_lookup_ne _ p q Hnin).
    rewrite (with_dirs_lookup_ne fs p q Hnin).
    apply with_dirs_lookup_ne.
    intros Hin. apply Hnin. apply ancestors_prefix in Hin as [Hp Hne].
    apply prefix_in_ancestors; [done|]. etrans; [exact Hp|].
    apply parent_prefix.
Qed.

End TreeFacts.

(** ** Running computations *)

Module RunFacts.

Import Sys TreeFacts.
Local Open Scope py_scope.

Lemma bind_Ok_inv {A B} (c : M A) (k : A -> M B) w b w' :
  bind c k w = (Ok b, w') ->
  exists a w1, c w = (Ok a, w1) /\ k a w1 = (Ok b, w').
Proof. unfold bind. destruct (c w) as [[a|e] w1]; [eauto|done]. Qed.

(** A run whose result is known, paired with the world it leaves. *)
Lemma run_eq {A} (c : M A) (w : world) (r : res A) :
  (c w).1 = r -> c w = (r, (c w).2).
Proof. intros <-. by destruct (c w). Qed.

Tactic Notation "inv_bind" hyp(H) "as" ident(a) ident(w) ident(Hc) :=
  apply bind_Ok_inv in H as (a & w & Hc & H).

Section Ops.

Variable os_fault : syscall -> option pystr.
Variable strerror : failure -> syscall -> pystr.
Variable strftime : pystr -> nat -> pystr.

Lemma guarded_Ok_inv {A} call (c : M A) w a w' :
  guarded os_fault call c w = (Ok a, w') ->
  os_fault call = None /\ c w = (Ok a, w').
Proof. unfold guarded. destruct (os_fault call); [done|auto]. Qed.

Lemma set_fs_same w : set_fs (w_fs w) w = w.
Proof. by destruct w. Qed.

(** [os.mkdir] changes the world only when it returns. *)
Lemma os_mkdir_inv p w r w' :
  os_mkdir os_fault strerror p w = (r, w') ->
  (exists e, r = Raise e /\ w' = w)
  \/ (r = Ok tt /\ w' = set_fs (<[p := Dir]> (w_fs w)) w
      /\ p <> [] /\ os_fault (SysMkdir p) = None
      /\ forall q, q ∈ ancestors_and_self (parent p) ->
                   w_fs w !! q = Some Dir).
Proof.
  unfold os_mkdir, guarded.
  destruct (first_obstacle (w_fs w) (parent p)) as [q|] eqn:Hob.
  { destruct (w_fs w !! q); intros H; inversion H; subst; left; eauto. }
  destruct (os_fault (SysMkdir p)) eqn:Hf.
  { intros H; inversion H; subst; left; eauto. }
  destruct (lookup_node (w_fs w) p) eqn:Hl.
  { intros H; inversion H; subst; left; eauto. }
  intros H; inversion H; subst. right.
  split; [done|]. split; [done|]. split; [by intros ->|]. split; [done|].
  by apply first_obstacle_None.
Qed.

Lemma unless_is_dir_Ok_inv p e w u w' :
  unless_is_dir p e w = (Ok u, w') ->
  w' = w /\ with_dirs (w_fs w) p = w_fs w.
Proof.
  unfold unless_is_dir.
  destruct (first_obstacle (w_fs w) p) eqn:Hob; [done|].
  intros H. inversion H; subst. split; [done|].
  apply with_dirs_all_dirs. by apply first_obstacle_None.
Qed.

Lemma os_mkdir_made fs (p : path) :
  p <> [] ->
  (forall q, q ∈ ancestors_and_self (parent p) -> fs !! q = Some Dir) ->
  <[p := Dir]> fs = with_dirs fs p.
Proof.
  intros Hne Hall. rewrite <- (with_dirs_step fs p Hne).
  by rewrite (with_dirs_all_dirs fs (parent p)).
Qed.

Lemma mkdir_exist_ok_Ok_inv p w u w' :
  mkdir_exist_ok os_fault strerror p w = (Ok u, w') ->
  w' = set_fs (with_dirs (w_fs w) p) w.
Proof.
  unfold mkdir_exist_ok, try_except.
  destruct (os_mkdir os_fault strerror p w) as [r1 w1] eqn:Hmk.
  apply os_mkdir_inv in Hmk as [(e & -> & ->)|(-> & -> & Hne & _ & Hall)].
  - destruct e; try done;
      intros H; apply unless_is_dir_Ok_inv in H as [-> ->];
      by rewrite set_fs_same.
  - intros H. inversion H; subst. by rewrite os_mkdir_made.
Qed.

Lemma mkdir_parents_Ok_inv fuel p w u w' :
  mkdir_parents os_fault strerror fuel p w = (Ok u, w') ->
  w' = set_fs (with_dirs (w_fs w) p) w.
Proof.
  revert p w u w'. induction fuel as [|fuel IH]; intros p w u w';
    cbn [mkdir_parents]; unfold try_except;
    destruct (os_mkdir os_fault strerror p w) as [r1 w1] eqn:Hmk;
    apply os_mkdir_inv in Hmk as [(e & -> & ->)|(-> & -> & Hne & _ & Hall)].
  - destruct e; try done;
      intros H; apply unless_is_dir_Ok_inv in H as [-> ->];
      by rewrite set_fs_same.
  - intros H. inversion H; subst. by rewrite os_mkdir_made.
  - destruct e; try done;
      try (intros H; apply unless_is_dir_Ok_inv in H as [-> ->];
           by rewrite set_fs_same).
    destruct p as [|c p]; [done|].
    intros H. inv_bind H as u1 w1 H1.
    apply IH in H1 as ->. apply mkdir_exist_ok_Ok_inv in H as ->.
    unfold set_fs. cbn [w_fs w_console w_requests w_ticks].
    by rewrite with_dirs_parent.
  - intros H. inversion H; subst. by rewrite os_mkdir_made.
Qed.

(** The climb of [mkdir_parents] ends at the root before the fuel does:
    more fuel than the length of the path changes nothing. *)
Lemma mkdir_parents_fuel fuel (p : path) :
  (length p <= fuel)%nat ->
  mkdir_parents os_fault strerror fuel p = mkdir_p os_fault strerror p.
Proof.
  unfold mkdir_p. revert p. induction fuel as [|fuel IH]; intros p Hlen.
  - destruct p; [done|simpl in Hlen; lia].
  - destruct p as [|x p]; [done|].
    assert (Hpar : length (parent (x :: p)) = length p).
    { unfold parent. destruct (exists_last (l := x :: p)) as (q & y & Hq);
        [done|].
      rewrite Hq, removelast_last.
      apply (f_equal length) in Hq. rewrite length_app in Hq.
      simpl in Hq. lia. }
    cbn [mkdir_parents length].
    rewrite (IH (parent (x :: p))) by (simpl in Hlen; lia).
    by rewrite Hpar.
Qed.

Lemma mkdir_p_Ok_inv p w u w' :
  mkdir_p os_fault strerror p w = (Ok u, w') ->
  w' = set_fs (with_dirs (w_fs w) p) w.
Proof. apply mkdir_parents_Ok_inv. Qed.

Lemma open_w_Ok_inv p w u w' :
  open_w os_fault strerror p w = (Ok u, w') ->
  w' = set_fs (<[p := File []]> (w_fs w)) w.
Proof.
  unfold open_w. intros H. apply guarded_Ok_inv in H as [Hf H].
  destruct (is_dir (w_fs w) p); [done|].
  destruct (is_dir (w_fs w) (parent p)); [|done]. by inversion H.
Qed.

Lemma file_write_Ok_inv p data w u w' :
  file_write os_fault strerror p data w = (Ok u, w') ->
  exists c, w_fs w !! p = Some (File c)
            /\ w' = set_fs (<[p := File (c ++ data)]> (w_fs w)) w.
Proof.
  unfold file_write. intros H. apply guarded_Ok_inv in H as [Hf H].
  destruct (w_fs w !! p) as [[c|]|]; [|done|done].
  inversion H. eauto.
Qed.

(** A write to the file whose content is tracked. *)
Lemma file_write_tracked p data base c w u w' :
  w_fs w = <[p := File c]> base ->
  file_write os_fault strerror p data w = (Ok u, w') ->
  w_fs w' = <[p := File (c ++ data)]> base
  /\ w_requests w' = w_requests w.
Proof.
  intros Hfs H. apply file_write_Ok_inv in H as (c' & Hl & ->).
  rewrite Hfs, lookup_insert_eq in Hl. inversion Hl; subst c'.
  simpl. rewrite Hfs. by rewrite insert_insert_eq.
Qed.

Lemma for_each_write_tracked {A} (f : A -> pystr) p l base c w u w' :
  w_fs w = <[p := File c]> base ->
  for_each l (fun x => file_write os_fault strerror p (f x)) w = (Ok u, w') ->
  w_fs w' = <[p := File (c ++ concat (map f l))]> base
  /\ w_requests w' = w_requests w.
Proof.
  revert c w. induction l as [|x l IH]; intros c w Hfs H; simpl in H.
  - inversion H; subst. simpl. by rewrite app_nil_r.
  - inv_bind H as u1 w1 Hc.
    apply (file_write_tracked _ _ _ _ _ _ _ Hfs) in Hc as [Hfs1 Hr1].
    apply (IH _ _ Hfs1) in H as [Hfs2 Hr2].
    simpl. rewrite app_assoc. split; congruence.
Qed.

Lemma for_each_print_run {A} (g : A -> pystr) l w :
  exists w', for_each l (fun x => print (g x)) w = (Ok tt, w')
             /\ w_fs w' = w_fs w /\ w_requests w' = w_requests w
             /\ w_ticks w' = w_ticks w.
Proof.
  revert w. induction l as [|x l IH]; intros w; simpl.
  - by exists w.
  - unfold bind at 1. simpl.
    destruct (IH (print (g x) w).2) as (w' & Hr & H1 & H2 & H3).
    exists w'. split; [exact Hr|]. simpl in *. done.
Qed.

End Ops.

End RunFacts.

(** ** [extract_emails_from_text], step by step *)

Module ExtractFacts.

Import Re ReSpec ReFacts Emails PatternFacts PipelineFacts Sys RunFacts Extract.
Local Open Scope py_scope.

(** The output path the function settles on, for the n-th reading of
    the clock. *)
Definition output_path (strftime : pystr -> nat -> pystr)
    (input_file : path) (output_file : option path) (n : nat) : path :=
  match output_file with
  | None =>
      parent input_file
      ++ [lit "extracted_emails_" ++ strftime (lit "%Y%m%d_%H%M%S") n
          ++ lit ".txt"]
  | Some o => o
  end.

Section Run.

Variable ua : Z -> bool.
Variable ul : pystr -> pystr.
Variable os_fault : syscall -> option pystr.
Variable strerror : failure -> syscall -> pystr.
Variable strftime : pystr -> nat -> pystr.

Abbreviation extract := (extract_emails_from_text ua ul os_fault strerror strftime).
Abbreviation body := (extract_body ua ul os_fault strerror strftime).

(** The world in which the [try] block starts. *)
Definition at_try (output_file : option path) (w : world) : world :=
  match output_file with
  | None => (now_strftime strftime (lit "%Y%m%d_%H%M%S") w).2
  | Some _ => w
  end.

Lemma at_try_frame output_file w :
  w_fs (at_try output_file w) = w_fs w
  /\ w_requests (at_try output_file w) = w_requests w
  /\ w_console (at_try output_file w) = w_console w.
Proof. by destruct output_file. Qed.

(** The function, unfolded along its ways out. *)
Lemma extract_unfold input_file output_file w :
  extract input_file output_file w
  = match lookup_node (w_fs w) input_file with
    | Some _ =>
        let out := output_path strftime input_file output_file (w_ticks w) in
        match body input_file out (at_try output_file w) with
        | (Ok emails, w2) => (Ok (emails, Some (path_str out)), w2)
        | (Raise e, w2) =>
            (Ok ([], None),
             (print (lit "Error processing file: " ++ exn_str e) w2).2)
        end
    | None =>
        match os_fault (SysStat input_file) with
        | Some msg => (Raise (OSError msg), w)
        | None =>
            (Ok ([], None),
             (print (lit "Error: Input file '" ++ path_str input_file
                     ++ lit "' does not exist.") w).2)
        end
    end.
Proof.
  unfold extract_emails_from_text, bind at 1, path_exists.
  destruct (lookup_node (w_fs w) input_file) as [n|].
  2:{ unfold guarded. by destruct (os_fault (SysStat input_file)). }
  simpl.
  destruct output_file as [o|]; simpl.
  - unfold bind at 1. simpl. unfold bind at 1, try_except, bind at 1.
    destruct (extract_body ua ul os_fault strerror strftime input_file o w)
      as [[emails|e] w2]; done.
  - unfold bind at 1, bind at 1. simpl.
    unfold bind at 1, try_except, bind at 1.
    match goal with |- context [extract_body ?a ?b ?c ?d ?e ?f ?g ?h] =>
      destruct (extract_body a b c d e f g h) as [[emails|e'] w2] end; done.
Qed.

Lemma write_report_inv input_file out emails w u w' :
  write_report os_fault strerror strftime input_file out emails w = (Ok u, w') ->
  exists date,
    w_fs w' = <[out := File (report_text input_file date emails)]>
                (with_dirs (w_fs w) (parent out))
    /\ w_requests w' = w_requests w.
Proof.
  unfold write_report. intros H.
  inv_bind H as u1 w1 H1. apply mkdir_p_Ok_inv in H1 as ->.
  inv_bind H as u2 w2 H2. apply open_w_Ok_inv in H2 as ->.
  set (base := with_dirs (w_fs w) (parent out)).
  assert (Hfs2 : w_fs (set_fs (<[out := File []]>
                   (w_fs (set_fs base w))) (set_fs base w))
                 = <[out := File []]> base) by done.
  inv_bind H as u3 w3 H3.
  eapply file_write_tracked in H3 as [Hfs3 Hr3]; [|exact Hfs2].
  inv_bind H as date w4 H4. inversion H4; subst w4; clear H4.
  inv_bind H as u5 w5 H5.
  eapply file_write_tracked in H5 as [Hfs5 Hr5]; [|exact Hfs3].
  inv_bind H as u6 w6 H6.
  eapply file_write_tracked in H6 as [Hfs6 Hr6]; [|exact Hfs5].
  inv_bind H as u7 w7 H7.
  eapply file_write_tracked in H7 as [Hfs7 Hr7]; [|exact Hfs6].
  inv_bind H as u8 w8 H8.
  eapply for_each_write_tracked in H8 as [Hfs8 Hr8]; [|exact Hfs7].
  inv_bind H as u9 w9 H9. inversion H9; subst w9; clear H9.
  inv_bind H as u10 w10 H10. inversion H10; subst w10; clear H10.
  match type of H with for_each ?l ?f ?w0 = _ =>
    destruct (for_each_print_run
                (fun ie : nat * pystr =>
                   lit "  " ++ str_of_nat ie.1 ++ lit ". " ++ ie.2) l w0)
      as (w11 & Hrun & Hf11 & Hr11 & _) end.
  rewrite Hrun in H. inversion H; subst w'; clear H.
  exists date. split.
  - rewrite Hf11. simpl. rewrite Hfs8. f_equal. f_equal.
    unfold report_text, report_header. simpl.
    by rewrite <- !app_assoc.
  - rewrite Hr11. simpl. simpl in *. congruence.
Qed.

Lemma read_text_Ok_inv p w c w' :
  read_text os_fault strerror p w = (Ok c, w') ->
  lookup_node (w_fs w) p = Some (File c) /\ w' = w
  /\ os_fault (SysRead p) = None.
Proof.
  unfold read_text. intros H. apply guarded_Ok_inv in H as [Hf H].
  destruct (lookup_node (w_fs w) p) as [[c'|]|]; [|done|done].
  by inversion H.
Qed.

(** A block that ends normally has read the input file and holds the
    deduplicated matches; the tree is untouched unless there are some,
    and then the report is the one change. *)
Lemma extract_body_inv input_file out w emails w2 :
  body input_file out w = (Ok emails, w2) ->
  exists content,
    lookup_node (w_fs w) input_file = Some (File content)
    /\ emails = dedup ul (find_emails ua content)
    /\ w_requests w2 = w_requests w
    /\ match emails with
       | [] => w_fs w2 = w_fs w
       | _ :: _ =>
           exists date,
             w_fs w2 = <[out := File (report_text input_file date emails)]>
                         (with_dirs (w_fs w) (parent out))
       end.
Proof.
  unfold extract_body. intros H.
  inv_bind H as u1 w1 H1. inversion H1; subst w1; clear H1.
  inv_bind H as content w3 H3.
  apply read_text_Ok_inv in H3 as (Hl & -> & _).
  exists content. split; [exact Hl|].
  inv_bind H as u4 w4 H4. inversion H4; subst w4; clear H4.
  inv_bind H as u5 w5 H5. inversion H; subst emails w2; clear H.
  split; [done|].
  destruct (dedup ul (find_emails ua content)) as [|e es] eqn:He.
  - inversion H5; subst w5. done.
  - apply write_report_inv in H5 as (date & Hfs & Hr).
    split; [exact Hr|]. by exists date.
Qed.

(** A readable file without a match: the block ends normally with the
    empty list, having only printed. *)
Lemma extract_body_no_match input_file out w content :
  lookup_node (w_fs w) input_file = Some (File content) ->
  os_fault (SysRead input_file) = None ->
  find_emails ua content = [] ->
  exists w2,
    body input_file out w = (Ok [], w2)
    /\ w_fs w2 = w_fs w /\ w_requests w2 = w_requests w
    /\ w_ticks w2 = w_ticks w
    /\ w_console w2
       = w_console w
         ++ [lit "Reading file: " ++ path_str input_file;
             lit "Found " ++ str_of_nat 0 ++ lit " email addresses ("
             ++ str_of_nat 0 ++ lit " unique)";
             lit "No email addresses found in the file."].
Proof.
  intros Hl Hf Hnone. eexists. split.
  - unfold extract_body, bind at 1. simpl.
    unfold bind at 1, read_text, guarded. rewrite Hf. simpl. rewrite Hl.
    rewrite Hnone. reflexivity.
  - simpl. rewrite <- !app_assoc. done.
Qed.

End Run.

End ExtractFacts.

(** ** Text lines and the report reader *)

Module ReportFacts.

Import Emails Sys Extract.

Lemma lit_dot_space : lit ". " = [46; 32].
Proof. by vm_compute. Qed.

Lemma split_lines_nonempty s : split_lines s <> [].
Proof.
  destruct s as [|c s]; simpl; [done|].
  destruct (c =? NL); [done|]. by destruct (split_lines s).
Qed.

Lemma split_lines_app x y :
  split_lines (x ++ NL :: y) = split_lines x ++ split_lines y.
Proof.
  induction x as [|c x IH]; simpl; [done|].
  destruct (c =? NL); [by rewrite IH|].
  rewrite IH. pose proof (split_lines_nonempty x) as Hne.
  by destruct (split_lines x).
Qed.

Lemma split_lines_one x : NL ∉ x -> split_lines x = [x].
Proof.
  induction x as [|c x IH]; intros Hnl; simpl; [done|].
  destruct (Z.eqb_spec c NL) as [->|Hne]; [exfalso; apply Hnl; left|].
  rewrite IH; [done|]. intros Hin. apply Hnl. by right.
Qed.

Lemma digits_of_digits fuel n acc :
  Forall (fun c => is_digit c = true) acc ->
  Forall (fun c => is_digit c = true) (digits_of fuel n acc).
Proof.
  revert n acc.
  induction fuel as [|fuel IH]; intros n acc Hacc; cbn [digits_of]; [done|].
  assert (Hd : is_digit (48 + Z.of_nat (n mod 10)) = true).
  { unfold is_digit. pose proof (Nat.mod_upper_bound n 10). lia. }
  destruct (n / 10 =? 0)%nat; [by constructor|].
  apply IH. by constructor.
Qed.

Lemma digits_of_nonempty fuel n acc :
  (0 < fuel)%nat \/ acc <> [] -> digits_of fuel n acc <> [].
Proof.
  revert n acc.
  induction fuel as [|fuel IH]; intros n acc H; cbn [digits_of].
  - destruct H; [lia|done].
  - destruct (n / 10 =? 0)%nat; [done|]. apply IH. by right.
Qed.

Lemma str_of_nat_digits n : Forall (fun c => is_digit c = true) (str_of_nat n).
Proof. apply digits_of_digits. constructor. Qed.

Lemma str_of_nat_nonempty n : str_of_nat n <> [].
Proof. apply digits_of_nonempty. left. lia. Qed.

Lemma span_digits_app ds c r :
  Forall (fun c => is_digit c = true) ds -> is_digit c = false ->
  span_digits (ds ++ c :: r) = (ds, c :: r).
Proof.
  intros Hds Hc. induction Hds as [|d ds Hd _ IH]; simpl.
  - by rewrite Hc.
  - by rewrite Hd, IH.
Qed.

(** The line written for entry [ie], without its line feed. *)
Definition listing_line (ie : nat * pystr) : pystr :=
  str_of_nat ie.1 ++ lit ". " ++ ie.2.

Lemma enumerated_listing_line ie : enumerated_line (listing_line ie) = Some ie.2.
Proof.
  unfold enumerated_line, listing_line. rewrite lit_dot_space. simpl.
  rewrite span_digits_app; [|apply str_of_nat_digits|done].
  pose proof (str_of_nat_nonempty ie.1).
  by destruct (str_of_nat ie.1).
Qed.

Lemma listing_line_no_NL ie : NL ∉ ie.2 -> NL ∉ listing_line ie.
Proof.
  intros Hnl. unfold listing_line. rewrite lit_dot_space.
  rewrite !elem_of_app. intros [Hin|[Hin|Hin]]; [| |done].
  - pose proof (str_of_nat_digits ie.1) as Hd.
    rewrite Forall_forall in Hd. by apply Hd in Hin.
  - apply elem_of_cons in Hin as [Hin|Hin]; [done|].
    apply elem_of_cons in Hin as [Hin|Hin]; [done|].
    by apply elem_of_nil in Hin.
Qed.

Lemma split_lines_listing l :
  Forall (fun ie : nat * pystr => NL ∉ ie.2) l ->
  split_lines (concat (map report_line l)) = map listing_line l ++ [[]].
Proof.
  induction 1 as [|ie l Hie _ IH]; simpl; [done|].
  unfold report_line at 1. fold (listing_line ie).
  replace ((str_of_nat ie.1 ++ lit ". " ++ ie.2 ++ [NL])
           ++ concat (map report_line l))
    with (listing_line ie ++ NL :: concat (map report_line l)).
  2:{ unfold listing_line. by rewrite <- !app_assoc. }
  rewrite split_lines_app, IH.
  rewrite split_lines_one by by apply listing_line_no_NL. done.
Qed.

Lemma leading_enumerated_listing l rest :
  leading_enumerated (map listing_line l ++ [] :: rest) = map snd l.
Proof.
  induction l as [|ie l IH]; simpl; [done|].
  by rewrite enumerated_listing_line, IH.
Qed.

(** The lines of a text that ends with a blank line followed by the
    listing of [l]. *)
Lemma text_lines_listing before l :
  Forall (fun ie : nat * pystr => NL ∉ ie.2) l ->
  text_lines (before ++ [NL; NL] ++ concat (map report_line l))
  = split_lines before ++ [] :: map listing_line l.
Proof.
  intros Hl. unfold text_lines.
  replace (before ++ [NL; NL] ++ concat (map report_line l))
    with (before ++ NL :: (NL :: concat (map report_line l))) by done.
  rewrite split_lines_app. simpl. rewrite split_lines_listing by done.
  replace (split_lines before ++ [] :: map listing_line l ++ [[]])
    with ((split_lines before ++ [] :: map listing_line l) ++ [[]])
    by by rewrite <- app_assoc.
  by rewrite reverse_snoc, reverse_involutive.
Qed.

(** Reading back a text that ends with a blank line followed by the
    listing of [l] yields the entries of [l], whatever stands before. *)
Lemma reparse_after_blank before l :
  Forall (fun ie : nat * pystr => NL ∉ ie.2) l ->
  reparse_report (before ++ [NL; NL] ++ concat (map report_line l))
  = map snd l.
Proof.
  intros Hl. unfold reparse_report. rewrite text_lines_listing by done.
  rewrite reverse_app, reverse_cons, <- app_assoc. simpl.
  change (map listing_line l) with (listing_line <$> l).
  rewrite <- fmap_reverse.
  change (listing_line <$> reverse l) with (map listing_line (reverse l)).
  rewrite leading_enumerated_listing.
  change (map snd (reverse l)) with (snd <$> reverse l).
  by rewrite fmap_reverse, reverse_involutive.
Qed.

Lemma omap_enumerated_listing l :
  omap enumerated_line (map listing_line l) = map snd l.
Proof.
  induction l as [|ie l IH]; [done|].
  cbn [map omap list_omap]. by rewrite enumerated_listing_line, IH.
Qed.

(** A line that starts with a character that is no digit is not an
    enumerated line. *)
Lemma enumerated_line_other c r :
  is_digit c = false -> enumerated_line (c :: r) = None.
Proof. intros Hc. unfold enumerated_line. simpl. by rewrite Hc. Qed.

Lemma no_NL_check l :
  forallb (fun c => negb (c =? NL)) l = true -> NL ∉ l.
Proof.
  intros H Hin. apply list_elem_of_In in Hin.
  rewrite forallb_forall in H. apply H in Hin.
  by rewrite Z.eqb_refl in Hin.
Qed.

Lemma str_of_nat_no_NL n : NL ∉ str_of_nat n.
Proof.
  intros Hin. pose proof (str_of_nat_digits n) as Hd.
  rewrite Forall_forall in Hd. by apply Hd in Hin.
Qed.

Lemma enumerate1_snd {A} (l : list A) : map snd (enumerate1 l) = l.
Proof.
  unfold enumerate1. apply snd_zip. by rewrite length_seq.
Qed.

Lemma enumerate1_Forall_snd {A} (P : A -> Prop) (l : list A) :
  Forall P l -> Forall (fun ie : nat * A => P ie.2) (enumerate1 l).
Proof.
  intros Hl. apply Forall_forall. intros ie Hin.
  rewrite Forall_forall in Hl. apply Hl.
  rewrite <- (enumerate1_snd l). apply list_elem_of_fmap. eauto.
Qed.

(** The round trip on the report's text. *)
Lemma reparse_report_text input_file date emails :
  Forall (fun e => NL ∉ e) emails ->
  reparse_report (report_text input_file date emails) = emails.
Proof.
  intros Hnl. unfold report_text, report_header.
  rewrite <- !app_assoc.
  rewrite (app_assoc (lit "Email addresses extracted from: ")).
  rewrite !app_assoc. rewrite <- (app_assoc _ [NL; NL]).
  rewrite reparse_after_blank
    by exact (enumerate1_Forall_snd (fun e : pystr => NL ∉ e) emails Hnl).
  apply enumerate1_snd.
Qed.

(** Reading every enumerated line of the report gives the list too,
    when neither the source path nor the date holds a line feed. *)
Lemma reparse_all_lines_text input_file date emails :
  NL ∉ path_str input_file -> NL ∉ date ->
  Forall (fun e => NL ∉ e) emails ->
  reparse_all_lines (report_text input_file date emails) = emails.
Proof.
  intros Hp Hd Hnl. unfold reparse_all_lines, report_text, report_header.
  set (h1 := lit "Email addresses extracted from: " ++ path_str input_file).
  set (h2 := lit "Extraction date: " ++ date).
  set (h3 := lit "Total unique emails found: " ++ str_of_nat (length emails)).
  replace (((lit "Email addresses extracted from: " ++ path_str input_file
             ++ [NL])
            ++ (lit "Extraction date: " ++ date ++ [NL])
            ++ (lit "Total unique emails found: "
                ++ str_of_nat (length emails) ++ [NL])
            ++ repeat_char 45 50 ++ [NL; NL])
           ++ concat (map report_line (enumerate1 emails)))
    with ((h1 ++ NL :: h2 ++ NL :: h3 ++ NL :: repeat_char 45 50)
          ++ [NL; NL] ++ concat (map report_line (enumerate1 emails))).
  2:{ unfold h1, h2, h3. rewrite <- !app_assoc. simpl.
      repeat (rewrite <- !app_assoc; simpl; f_equal). }
  rewrite text_lines_listing
    by exact (enumerate1_Forall_snd (fun e : pystr => NL ∉ e) emails Hnl).
  rewrite !split_lines_app.
  assert (H1 : NL ∉ h1).
  { unfold h1. rewrite elem_of_app. intros [Hin|Hin]; [|done].
    revert Hin. apply no_NL_check. by vm_compute. }
  assert (H2 : NL ∉ h2).
  { unfold h2. rewrite elem_of_app. intros [Hin|Hin]; [|done].
    revert Hin. apply no_NL_check. by vm_compute. }
  assert (H3 : NL ∉ h3).
  { unfold h3. rewrite elem_of_app. intros [Hin|Hin].
    - revert Hin. apply no_NL_check. by vm_compute.
    - by apply str_of_nat_no_NL in Hin. }
  assert (H4 : NL ∉ repeat_char 45 50).
  { apply no_NL_check. by vm_compute. }
  rewrite !split_lines_one by done. simpl.
  assert (E1 : enumerated_line h1 = None).
  { unfold h1.
    replace (lit "Email addresses extracted from: ")
      with (69 :: lit "mail addresses extracted from: ") by by vm_compute.
    by apply enumerated_line_other. }
  assert (E2 : enumerated_line h2 = None).
  { unfold h2.
    replace (lit "Extraction date: ")
      with (69 :: lit "xtraction date: ") by by vm_compute.
    by apply enumerated_line_other. }
  assert (E3 : enumerated_line h3 = None).
  { unfold h3.
    replace (lit "Total unique emails found: ")
      with (84 :: lit "otal unique emails found: ") by by vm_compute.
    by apply enumerated_line_other. }
  cbn [omap list_omap]. rewrite E1, E2, E3.
  etrans; [apply omap_enumerated_listing|apply enumerate1_snd].
Qed.

End ReportFacts.

(** ** Discovery returns the leftmost, longest delimited addresses *)

Module DiscoveryFacts.

Import Re ReSpec ReFacts Emails PatternFacts LongestScan PatternScan
  DiscoverySpec.

(** *** Greedy repetition tries the longer runs first *)

Lemma rep_greedy_max cls k lo prev s m :
  rep_greedy cls k lo prev s = Some m ->
  exists run m' s',
    s = run ++ s' /\ m = run ++ m'
    /\ Forall (fun c => cls c = true) run /\ (lo <= length run)%nat
    /\ k (last_char prev run) s' = Some m'
    /\ forall run2 s2,
         s = run2 ++ s2 -> Forall (fun c => cls c = true) run2 ->
         (length run < length run2)%nat ->
         k (last_char prev run2) s2 = None.
Proof.
  revert lo prev m. induction s as [|c s IH]; intros lo prev m H.
  - simpl in H. destruct lo; [|done].
    exists [], m, []. repeat split; auto.
    intros run2 s2 Hs _ Hlen. symmetry in Hs.
    apply app_eq_nil in Hs as [-> _]. simpl in Hlen. lia.
  - simpl in H.
    destruct (cls c) eqn:Hc.
    + destruct (rep_greedy cls k (Nat.pred lo) (Some c) s) as [m1|] eqn:Hr.
      * inversion H; subst m.
        destruct (IH _ _ _ Hr)
          as (run & m' & s' & -> & -> & Hall & Hlo & Hk & Hmax).
        exists (c :: run), m', s'. repeat split; auto.
        -- simpl. lia.
        -- by rewrite <- last_char_cons.
        -- intros run2 s2 Hs Hall2 Hlen.
           destruct run2 as [|c2 run2]; [simpl in Hlen; lia|].
           simpl in Hs. inversion Hs; subst c2.
           inversion Hall2; subst.
           rewrite <- (last_char_cons prev). apply Hmax; auto.
           simpl in Hlen. lia.
      * destruct lo; [|done].
        exists [], m, (c :: s). repeat split; auto.
        intros run2 s2 Hs Hall2 Hlen.
        destruct run2 as [|c2 run2]; [simpl in Hlen; lia|].
        simpl in Hs. inversion Hs; subst c2.
        inversion Hall2; subst.
        destruct (k (last_char prev (c :: run2)) s2) as [m2|] eqn:Hk2; [|done].
        exfalso.
        rewrite <- last_char_cons in Hk2.
        destruct (rep_greedy_complete cls k O (Some c) run2 s2 m2)
          as [x Hx]; auto; [lia|].
        simpl in Hr. congruence.
    + destruct lo; [|done].
      exists [], m, (c :: s). repeat split; auto.
      intros run2 s2 Hs Hall2 Hlen.
      destruct run2 as [|c2 run2]; [simpl in Hlen; lia|].
      simpl in Hs. inversion Hs; subst c2.
      inversion Hall2; subst. congruence.
Qed.

(** Two runs of a class that end before the same excluded character
    are the same run. *)
Lemma run_unique (cls : Z -> bool) c a a' x x' :
  Forall (fun c => cls c = true) a -> Forall (fun c => cls c = true) a' ->
  cls c = false ->
  a ++ c :: x = a' ++ c :: x' -> a = a' /\ x = x'.
Proof.
  intros Ha. revert a'. induction Ha as [|y a Hy _ IH]; intros a' Ha' Hc Heq.
  - destruct a' as [|y' a']; simpl in Heq.
    + by inversion Heq.
    + inversion Heq; subst. inversion Ha'; subst. congruence.
  - destruct a' as [|y' a']; simpl in Heq.
    + inversion Heq; subst. congruence.
    + inversion Heq; subst. inversion Ha'; subst.
      destruct (IH a') as [-> ->]; auto.
Qed.

Section Longest.

Variable ua : Z -> bool.

Lemma bnd_tail_inv prev m rest :
  accepts ua [Bnd] prev m rest ->
  m = [] /\ at_boundary ua prev (head rest) = true.
Proof.
  intros H. inversion H as [|? ? ? ? Hb Hn| | | | |]; subst.
  inversion Hn; subst. done.
Qed.

Lemma match_items_bnd r prev s :
  match_items ua (Bnd :: r) prev s
  = if at_boundary ua prev (head s) then match_items ua r prev s else None.
Proof. done. Qed.

Lemma match_items_rep cls lo r prev s :
  match_items ua (Rep cls lo :: r) prev s
  = rep_greedy cls (match_items ua r) lo prev s.
Proof. done. Qed.

Lemma match_items_lit c r prev s :
  match_items ua (Lit c :: r) prev s
  = match s with
    | c' :: s' =>
        if c' =? c then cons c' <$> match_items ua r (Some c') s' else None
    | [] => None
    end.
Proof. done. Qed.

Lemma lit_rep_inv c cls lo k prev s m :
  match_items ua (Lit c :: Rep cls lo :: k) prev s = Some m ->
  exists s' m',
    s = c :: s' /\ m = c :: m'
    /\ rep_greedy cls (match_items ua k) lo (Some c) s' = Some m'.
Proof.
  rewrite match_items_lit. destruct s as [|c' s']; [done|].
  destruct (Z.eqb_spec c' c) as [->|]; [|done].
  rewrite match_items_rep.
  destruct (rep_greedy cls (match_items ua k) lo (Some c) s') as [m'|] eqn:Hr;
    [|done].
  simpl. intros H. inversion H; subst. eauto.
Qed.

(** No other delimited address that starts where the pattern matched
    is longer than the match. *)
Lemma email_match_longest prev s m m' rest' :
  match_items ua email_pattern prev s = Some m ->
  s = m' ++ rest' ->
  accepts ua email_pattern prev m' rest' ->
  (length m' <= length m)%nat.
Proof.
  intros H Hs Hacc.
  unfold email_pattern in H. rewrite match_items_bnd in H.
  destruct (at_boundary ua prev (head s)); [|done].
  rewrite match_items_rep in H.
  apply rep_greedy_max in H as (l & m1 & s1 & Hs1 & -> & Hl & _ & Hk1 & _).
  apply lit_rep_inv in Hk1 as (s2 & m2 & -> & -> & Hr2).
  apply rep_greedy_max in Hr2
    as (d & m3 & s3 & -> & -> & Hd & _ & Hk2 & Hmaxd).
  apply lit_rep_inv in Hk2 as (s4 & m4 & -> & -> & Hr3).
  apply rep_greedy_max in Hr3
    as (t & m5 & s5 & -> & -> & Ht & _ & Hk3 & Hmaxt).
  rewrite match_items_bnd in Hk3.
  destruct (at_boundary ua _ (head s5)); [|done].
  inversion Hk3; subst m5; clear Hk3.
  inversion Hacc as [|? ? ? ? Hb Hcore| | | | |]; subst; clear Hacc.
  apply (core_accepts_inv ua tld_cls [Bnd]) in Hcore
    as (l' & d' & t' & m'' & -> & _ & Hl' & _ & Hd' & Ht2 & Ht' & Htail).
  apply bnd_tail_inv in Htail as [-> Hb'].
  rewrite <- !app_assoc in Hs. simpl in Hs.
  apply (run_unique local_cls) in Hs as [-> Hs2]; [|done|done|done].
  rewrite !app_nil_r.
  rewrite !length_app. simpl. rewrite !length_app. simpl.
  assert (Hsame : t ++ s5 = t' ++ rest' -> (length t' <= length t)%nat).
  { intros Heq.
    destruct (decide (length t' <= length t)%nat) as [|Hgt]; [done|].
    exfalso.
    pose proof (Hmaxt t' rest' Heq Ht' ltac:(lia)) as Hnone.
    rewrite match_items_bnd, Hb' in Hnone. done. }
  apply app_eq_inv in Hs2 as [(k & Hd1 & Hrest)|(k & Hd1 & Hrest)].
  - (* the other domain is [d] or shorter: its label ends inside [d] *)
    destruct k as [|c0 k].
    + rewrite app_nil_r in Hd1. subst d'. simpl in Hrest.
      inversion Hrest as [Heq]. symmetry in Heq. apply Hsame in Heq. lia.
    + simpl in Hrest. inversion Hrest as [[Hc0 Hk]]. subst d.
      rewrite length_app. simpl.
      enough (length t' <= length k)%nat by lia.
      apply app_eq_inv in Hk as [(k2 & Hk2 & Hk3)|(k2 & Hk2 & Hk3)].
      * destruct k2 as [|c2 k2].
        -- rewrite app_nil_r in Hk2. by subst.
        -- exfalso. simpl in Hk3. inversion Hk3 as [[Hc2 Hk4]].
           subst t'. rewrite Forall_app in Ht'. destruct Ht' as [_ Ht'].
           inversion Ht' as [|? ? Hdot _]; subst. done.
      * subst k. rewrite length_app. lia.
  - (* the other domain is [d] or longer *)
    destruct k as [|c0 k].
    + rewrite app_nil_r in Hd1. subst d'. simpl in Hrest.
      inversion Hrest as [Heq]. apply Hsame in Heq. lia.
    + exfalso.
      assert (Hlen : (length d < length d')%nat).
      { subst d'. rewrite length_app. simpl. lia. }
      assert (Heq : d ++ DOT :: t ++ s5 = d' ++ DOT :: t' ++ rest').
      { subst d'. rewrite <- app_assoc. by rewrite Hrest. }
      pose proof (Hmaxd d' (DOT :: t' ++ rest') Heq Hd' Hlen) as Hnone.
      destruct (match_items_complete ua [Lit DOT; Rep tld_cls 2; Bnd]
                  (last_char (Some AT) d') (DOT :: t' ++ []) rest')
        as [x Hx].
      { apply acc_lit. apply acc_rep; [done|done|].
        apply acc_bnd; [done|constructor]. }
      rewrite app_nil_r in Hx. simpl in Hx. simpl in Hnone. congruence.
Qed.

End Longest.

(** *** The form test and the shape *)

Lemma forallb_Forall (f : Z -> bool) l :
  forallb f l = true <-> Forall (fun c => f c = true) l.
Proof.
  induction l as [|c l IH]; simpl; [by split|].
  rewrite andb_true_iff, Forall_cons, IH. done.
Qed.

Lemma split_first_Some c s a b :
  split_first c s = Some (a, b) -> s = a ++ c :: b /\ c ∉ a.
Proof.
  revert a. induction s as [|x s IH]; intros a H; simpl in H; [done|].
  destruct (Z.eqb_spec x c) as [->|Hne].
  - inversion H; subst. split; [done|]. apply not_elem_of_nil.
  - destruct (split_first c s) as [[a' b']|]; [|done].
    inversion H; subst. destruct (IH a' eq_refl) as [-> Hnin].
    split; [done|]. apply not_elem_of_cons. split; [congruence|done].
Qed.

Lemma split_first_app c a b :
  c ∉ a -> split_first c (a ++ c :: b) = Some (a, b).
Proof.
  induction a as [|x a IH]; intros Hnin; simpl.
  - by rewrite Z.eqb_refl.
  - apply not_elem_of_cons in Hnin as [Hne Hnin].
    destruct (Z.eqb_spec x c) as [->|_]; [done|]. by rewrite IH.
Qed.

Lemma split_last_Some c s a b :
  split_last c s = Some (a, b) -> s = a ++ c :: b /\ c ∉ b.
Proof.
  unfold split_last. intros H.
  destruct (split_first c (reverse s)) as [[a' b']|] eqn:Hf; [|done].
  inversion H; subst. apply split_first_Some in Hf as [Hs Hnin].
  split.
  - rewrite <- (reverse_involutive s), Hs.
    by rewrite reverse_app, reverse_cons, <- app_assoc.
  - by rewrite elem_of_reverse.
Qed.

Lemma split_last_app c a b :
  c ∉ b -> split_last c (a ++ c :: b) = Some (a, b).
Proof.
  intros Hnin. unfold split_last.
  rewrite reverse_app, reverse_cons, <- app_assoc. simpl.
  rewrite split_first_app by by rewrite elem_of_reverse.
  by rewrite !reverse_involutive.
Qed.

Lemma class_excludes (cls : Z -> bool) c l :
  Forall (fun x => cls x = true) l -> cls c = false -> c ∉ l.
Proof.
  intros Hall Hc Hin. rewrite Forall_forall in Hall.
  apply Hall in Hin. congruence.
Qed.

Lemma nonempty_true s : nonempty s = true <-> s <> [].
Proof. by destruct s. Qed.

(** The executable test agrees with the declared shape, for a class of
    the last label that leaves out the dot. *)
Lemma has_email_form_shape tld m :
  tld DOT = false ->
  has_email_form tld m = true <-> email_shape tld m.
Proof.
  intros Htld. unfold has_email_form. split.
  - destruct (split_first AT m) as [[l r]|] eqn:Hf; [|done].
    destruct (split_last DOT r) as [[d t]|] eqn:Hl; [|done].
    apply split_first_Some in Hf as [-> _].
    apply split_last_Some in Hl as [-> _].
    rewrite !andb_true_iff, !forallb_Forall, !nonempty_true.
    intros [[[[[Hl Hlc] Hd] Hdc] Ht] Htc].
    exists l, d, t. repeat split; auto.
    by apply Nat.leb_le.
  - intros (l & d & t & -> & Hl & Hlc & Hd & Hdc & Ht & Htc).
    replace (l ++ [AT] ++ d ++ [DOT] ++ t)
      with (l ++ AT :: (d ++ DOT :: t)) by done.
    rewrite (split_first_app AT l (d ++ DOT :: t))
      by by apply (class_excludes local_cls).
    rewrite (split_last_app DOT d t) by by apply (class_excludes tld).
    rewrite !andb_true_iff, !forallb_Forall, !nonempty_true.
    repeat split; auto. by apply Nat.leb_le.
Qed.

Section Spec.

Variable ua : Z -> bool.

Lemma last_char_nonempty p q run :
  run <> [] -> last_char p run = last_char q run.
Proof.
  intros Hne. unfold last_char.
  destruct (last run) eqn:E; [done|]. by apply last_None in E.
Qed.

Lemma shape_last_char prev l d t :
  (2 <= length t)%nat ->
  last_char prev (l ++ [AT] ++ d ++ [DOT] ++ t) = last_char (Some DOT) t.
Proof.
  intros Ht. rewrite !app_assoc, last_char_app.
  apply last_char_nonempty. intros ->. simpl in Ht. lia.
Qed.

(** The discovery pattern accepts exactly the delimited addresses. *)
Lemma email_pattern_accepts prev m rest :
  accepts ua email_pattern prev m rest
  <-> email_shape tld_cls m
      /\ at_boundary ua prev (head (m ++ rest)) = true
      /\ at_boundary ua (last_char prev m) (head rest) = true.
Proof.
  split.
  - intros H. inversion H as [|? ? ? ? Hb Hcore| | | | |]; subst; clear H.
    apply (core_accepts_inv ua tld_cls [Bnd]) in Hcore
      as (l & d & t & m'' & -> & Hl & Hlc & Hd & Hdc & Ht & Htc & Htail).
    apply bnd_tail_inv in Htail as [-> Hb'].
    rewrite app_nil_r in *. split; [|split; [done|]].
    + exists l, d, t. repeat split; auto.
    + by rewrite shape_last_char.
  - intros ((l & d & t & -> & Hl & Hlc & Hd & Hdc & Ht & Htc) & Hb & Hb').
    rewrite shape_last_char in Hb' by done.
    apply acc_bnd; [done|].
    replace (l ++ [AT] ++ d ++ [DOT] ++ t)
      with (l ++ [AT] ++ d ++ [DOT] ++ t ++ []) by by rewrite app_nil_r.
    apply (core_accepts ua tld_cls [Bnd]); auto.
    apply acc_bnd; [done|constructor].
Qed.

Lemma longest_prefix_Some P n s m :
  longest_prefix P n s = Some m ->
  exists k, (k <= n)%nat /\ m = take k s /\ P m = true
            /\ forall j, (k < j <= n)%nat -> P (take j s) = false.
Proof.
  induction n as [|n IH]; simpl.
  - destruct (P (take 0 s)) eqn:HP; [|done].
    intros H. inversion H; subst. exists O. repeat split; auto. lia.
  - destruct (P (take (S n) s)) eqn:HP.
    + intros H. inversion H; subst. exists (S n). repeat split; auto. lia.
    + intros H. destruct (IH H) as (k & Hk & -> & HPk & Hmax).
      exists k. repeat split; auto.
      intros j Hj. destruct (decide (j = S n)) as [->|]; [done|].
      apply Hmax. lia.
Qed.

Lemma longest_prefix_None P n s :
  longest_prefix P n s = None ->
  forall j, (j <= n)%nat -> P (take j s) = false.
Proof.
  induction n as [|n IH]; simpl.
  - destruct (P (take 0 s)) eqn:HP; [done|].
    intros _ j Hj. by replace j with O by lia.
  - destruct (P (take (S n) s)) eqn:HP; [done|].
    intros H j Hj. destruct (decide (j = S n)) as [->|]; [done|].
    apply IH; [done|lia].
Qed.

Lemma longest_prefix_ext P Q n s :
  (forall j, P (take j s) = Q (take j s)) ->
  longest_prefix P n s = longest_prefix Q n s.
Proof.
  intros Hext. induction n as [|n IH]; simpl; rewrite Hext; [done|].
  by rewrite IH.
Qed.

(** A prefix passes the test of the scan exactly when the pattern
    accepts it. *)
Lemma bounded_accepts prev m rest :
  bounded_email ua tld_cls prev (m ++ rest) m = true
  <-> accepts ua email_pattern prev m rest.
Proof.
  unfold bounded_email. rewrite drop_app_length.
  rewrite !andb_true_iff, has_email_form_shape by done.
  rewrite email_pattern_accepts. tauto.
Qed.

(** At every position the pattern finds the longest bounded address that
    starts there, or nothing. *)
Lemma match_is_longest prev s :
  match_items ua email_pattern prev s
  = match_at (bounded_email ua tld_cls) prev s.
Proof.
  unfold match_at.
  destruct (match_items ua email_pattern prev s) as [m|] eqn:Hm;
    destruct (longest_prefix _ _ s) as [m2|] eqn:Hs.
  - f_equal.
    pose proof (match_items_sound ua _ _ _ _ Hm) as (rest & Hsr & Hacc).
    apply bounded_accepts in Hacc.
    assert (HPm : bounded_email ua tld_cls prev s (take (length m) s) = true).
    { rewrite Hsr, take_app_length. exact Hacc. }
    apply longest_prefix_Some in Hs as (k & Hk & -> & HP & Hmax).
    assert (Hlen : (length m <= length s)%nat).
    { rewrite Hsr, length_app. lia. }
    assert (Hmk : (length m <= k)%nat).
    { destruct (decide (length m <= k)%nat) as [|Hgt]; [done|].
      rewrite (Hmax (length m)) in HPm; [done|lia]. }
    assert (Hkm : (k <= length m)%nat).
    { rewrite <- (take_drop k s) in HP at 1.
      apply bounded_accepts in HP.
      pose proof (email_match_longest ua prev s m (take k s) (drop k s) Hm
                    (eq_sym (take_drop k s)) HP) as Hle.
      by rewrite length_take_le in Hle. }
    assert (k = length m) as -> by lia.
    by rewrite Hsr, take_app_length.
  - exfalso.
    pose proof (match_items_sound ua _ _ _ _ Hm) as (rest & Hsr & Hacc).
    apply bounded_accepts in Hacc.
    assert (HPm : bounded_email ua tld_cls prev s (take (length m) s) = true).
    { rewrite Hsr, take_app_length. exact Hacc. }
    rewrite (longest_prefix_None _ _ _ Hs (length m)) in HPm; [done|].
    rewrite Hsr, length_app. lia.
  - exfalso.
    apply longest_prefix_Some in Hs as (k & Hk & -> & HP & _).
    rewrite <- (take_drop k s) in HP at 1.
    apply bounded_accepts in HP.
    apply match_items_complete in HP. rewrite take_drop, Hm in HP.
    by destruct HP.
  - done.
Qed.

Lemma findall_is_scan skip prev s :
  findall_from ua email_pattern skip prev s
  = boundary_scan ua tld_cls skip prev s.
Proof.
  unfold boundary_scan.
  revert skip prev. induction s as [|c s IH]; intros skip prev;
    destruct skip; cbn [findall_from scan]; rewrite ?match_is_longest;
    try done.
  - destruct (match_at (bounded_email ua tld_cls) prev (c :: s));
      by rewrite IH.
Qed.

(** Discovery is the scan for the longest bounded address, with the
    class the pattern writes for the last label. *)
Lemma discovery_is_scan text :
  find_emails ua text = boundary_discovery ua tld_cls text.
Proof. apply findall_is_scan. Qed.

(** Two tests that agree on the prefixes of every text of a family
    closed under taking the tail give the same scan there. *)
Lemma scan_ext (P Q : option Z -> pystr -> pystr -> bool)
    (ok : pystr -> Prop) :
  (forall c s, ok (c :: s) -> ok s) ->
  (forall prev s j, ok s -> P prev s (take j s) = Q prev s (take j s)) ->
  forall skip prev s, ok s -> scan P skip prev s = scan Q skip prev s.
Proof.
  intros Htl Hext skip prev s. revert skip prev.
  induction s as [|c s IH]; intros skip prev Hok.
  - destruct skip; cbn [scan]; [|done]. unfold match_at.
    rewrite (longest_prefix_ext (P prev []) (Q prev []))
      by (intros j; by apply Hext).
    done.
  - destruct skip; cbn [scan].
    + unfold match_at.
      rewrite (longest_prefix_ext (P prev (c :: s)) (Q prev (c :: s)))
        by (intros j; by apply Hext).
      destruct (longest_prefix _ _ _);
        (rewrite IH by (by eapply Htl)); done.
    + apply IH. by eapply Htl.
Qed.

Lemma forallb_ext_in (f g : Z -> bool) l :
  (forall c, c ∈ l -> f c = g c) -> forallb f l = forallb g l.
Proof.
  induction l as [|c l IH]; intros H; simpl; [done|].
  rewrite H by left. rewrite IH; [done|]. intros x Hx. apply H. by right.
Qed.

Lemma has_email_form_no_bar m :
  BAR ∉ m -> has_email_form tld_cls m = has_email_form strict_tld_cls m.
Proof.
  intros Hbar. unfold has_email_form.
  destruct (split_first AT m) as [[l r]|] eqn:Hf; [|done].
  destruct (split_last DOT r) as [[d t]|] eqn:Hl; [|done].
  apply split_first_Some in Hf as [-> _].
  apply split_last_Some in Hl as [-> _].
  f_equal. apply forallb_ext_in. intros c Hc.
  assert (Hne : c <> BAR) by (intros ->; apply Hbar; set_solver).
  destruct (strict_tld_cls c) eqn:Hs; [by apply strict_tld_is_tld|].
  destruct (tld_cls c) eqn:Ht; [|done].
  apply tld_not_bar_is_strict in Ht; [congruence|done].
Qed.

(** Without a bar in the text the last label is of letters only. *)
Lemma boundary_scan_no_bar skip prev s :
  BAR ∉ s ->
  boundary_scan ua tld_cls skip prev s
  = boundary_scan ua strict_tld_cls skip prev s.
Proof.
  unfold boundary_scan.
  apply (scan_ext _ _ (fun s => BAR ∉ s)).
  - intros c s' Hbar Hin. apply Hbar. by right.
  - intros prev' s' j Hbar. unfold bounded_email.
    rewrite has_email_form_no_bar; [done|].
    intros Hin. apply Hbar. by apply (subseteq_take j).
Qed.

(** An address whose last label is of letters ends with a word
    character. *)
Lemma email_form_last prev m :
  has_email_form strict_tld_cls m = true ->
  word_opt ua (last_char prev m) = true.
Proof.
  intros Hf. apply has_email_form_shape in Hf; [|done].
  destruct Hf as (l & d & t & -> & _ & _ & _ & _ & Ht & Htc).
  destruct t as [|c t _] using rev_ind; [simpl in Ht; lia|].
  unfold last_char.
  replace (l ++ [AT] ++ d ++ [DOT] ++ t ++ [c])
    with ((l ++ [AT] ++ d ++ [DOT] ++ t) ++ [c])
    by by rewrite <- !app_assoc.
  rewrite last_snoc. simpl. apply strict_tld_is_word.
  apply Forall_app in Htc as [_ Hc]. by inversion Hc.
Qed.

(** At a position that holds a word character, with the last label of
    letters, [\b] at both ends says what the specification says: no word
    character immediately before or after. *)
Lemma bounded_is_delimited prev c s j :
  is_word ua c = true ->
  bounded_email ua strict_tld_cls prev (c :: s) (take j (c :: s))
  = delimited_email ua strict_tld_cls prev (c :: s) (take j (c :: s)).
Proof.
  intros Hw. unfold bounded_email, delimited_email.
  destruct (has_email_form strict_tld_cls (take j (c :: s))) eqn:Hf; [|done].
  cbn [andb].
  pose proof (email_form_last prev _ Hf) as Hlast.
  unfold at_boundary. rewrite Hlast. cbn [head word_opt]. rewrite Hw.
  by destruct (word_opt ua prev), (word_opt ua (head _)).
Qed.

(** A prefix of the form of an address starts with the character at the
    position. *)
Lemma form_prefix_head tld c s k :
  has_email_form tld (take k (c :: s)) = true ->
  head (take k (c :: s)) = Some c.
Proof. destruct k; [by vm_compute|done]. Qed.

Lemma match_at_head (P : option Z -> pystr -> pystr -> bool) tld prev c s m :
  (forall j, P prev (c :: s) (take j (c :: s)) = true ->
             has_email_form tld (take j (c :: s)) = true) ->
  match_at P prev (c :: s) = Some m -> head m = Some c.
Proof.
  intros HP Hm. unfold match_at in Hm.
  apply longest_prefix_Some in Hm as (k & _ & -> & Hk & _).
  by eapply form_prefix_head, HP.
Qed.

Lemma bounded_form tld prev s m :
  bounded_email ua tld prev s m = true -> has_email_form tld m = true.
Proof.
  unfold bounded_email. intros H.
  apply andb_true_iff in H as [H _]. by apply andb_true_iff in H as [H _].
Qed.

Lemma delimited_form tld prev s m :
  delimited_email ua tld prev s m = true -> has_email_form tld m = true.
Proof.
  unfold delimited_email. intros H.
  apply andb_true_iff in H as [H _]. by apply andb_true_iff in H as [H _].
Qed.

(** The two scans part only where one of them returns a match that
    starts with a character outside the word characters. *)
Lemma boundary_scan_is_spec_scan skip prev s :
  (forall e, e ∈ boundary_scan ua strict_tld_cls skip prev s ->
             word_opt ua (head e) = true) ->
  (forall e, e ∈ spec_scan ua strict_tld_cls skip prev s ->
             word_opt ua (head e) = true) ->
  boundary_scan ua strict_tld_cls skip prev s
  = spec_scan ua strict_tld_cls skip prev s.
Proof.
  unfold boundary_scan, spec_scan. revert skip prev.
  induction s as [|c s IH]; intros skip prev Hb Hs.
  { destruct skip; [|done]. by vm_compute. }
  destruct skip as [|k]; [|by apply IH].
  cbn [scan] in *.
  destruct (is_word ua c) eqn:Hw.
  - assert (Hm : match_at (bounded_email ua strict_tld_cls) prev (c :: s)
                 = match_at (delimited_email ua strict_tld_cls) prev (c :: s)).
    { apply longest_prefix_ext. intros j. by apply bounded_is_delimited. }
    rewrite Hm in Hb |- *.
    destruct (match_at (delimited_email ua strict_tld_cls) prev (c :: s)).
    + f_equal. apply IH; intros e He; [apply Hb|apply Hs]; by right.
    + by apply IH.
  - destruct (match_at (bounded_email ua strict_tld_cls) prev (c :: s))
      as [m|] eqn:Hm.
    { exfalso. pose proof (Hb m ltac:(left)) as Hh.
      rewrite (match_at_head _ strict_tld_cls prev c s m
                 (fun j => bounded_form _ _ _ _) Hm) in Hh.
      simpl in Hh. congruence. }
    destruct (match_at (delimited_email ua strict_tld_cls) prev (c :: s))
      as [m|] eqn:Hm'.
    { exfalso. pose proof (Hs m ltac:(left)) as Hh.
      rewrite (match_at_head _ strict_tld_cls prev c s m
                 (fun j => delimited_form _ _ _ _) Hm') in Hh.
      simpl in Hh. congruence. }
    by apply IH.
Qed.

End Spec.

End DiscoveryFacts.

(** ** The email pipeline *)

Module EmailProps.

Import Re ReSpec ReFacts Emails PatternFacts PipelineFacts.
Import Sys RunFacts Extract ExtractFacts ReportFacts LongestScan PatternScan
  DiscoverySpec Demo.

Lemma shape_chars tld m c :
  email_shape tld m -> c ∈ m ->
  local_cls c = true \/ domain_cls c = true \/ tld c = true
  \/ c = AT \/ c = DOT.
Proof.
  intros (l & d & t & -> & _ & Hl & _ & Hd & _ & Ht) Hin.
  rewrite Forall_forall in Hl, Hd, Ht.
  rewrite !elem_of_app in Hin.
  destruct Hin as [Hin|[Hin|[Hin|[Hin|Hin]]]]; auto.
  - apply list_elem_of_singleton in Hin. auto.
  - apply list_elem_of_singleton in Hin. auto 6.
Qed.

Lemma class_bounds c :
  local_cls c = true \/ domain_cls c = true \/ tld_cls c = true
  \/ c = AT \/ c = DOT ->
  32 < c < 128.
Proof.
  unfold local_cls, domain_cls, tld_cls, one_of, is_upper, is_lower,
    is_digit, AT, DOT.
  replace (lit "._%+-") with [46; 95; 37; 43; 45] by by vm_compute.
  replace (lit ".-") with [46; 45] by by vm_compute.
  replace (lit "|") with [124] by by vm_compute.
  simpl. lia.
Qed.

Lemma found_shape ua content e :
  e ∈ find_emails ua content -> email_shape tld_cls e.
Proof.
  intros He. apply findall_from_sound in He as (prev' & s' & Hm).
  by eapply email_pattern_shape.
Qed.

Lemma found_no_NL ua content e : e ∈ find_emails ua content -> NL ∉ e.
Proof.
  intros He Hin. apply found_shape in He.
  pose proof (class_bounds _ (shape_chars _ _ _ He Hin)) as Hb.
  unfold NL in Hb. lia.
Qed.


(** C4. For every list given to [validate_emails], the two returned
    lists partition it: the lengths add up (and the two totals are these
    lengths), [valid] holds exactly the entries the strict pattern
    matches and [invalid] the others, every entry of the input is in one
    of the lists and not in the other, the two lists together are a
    rearrangement of the input, and each keeps the order of the input. *)
Theorem C4_validate_partitions (ua : Z -> bool) (email_list : list pystr) :
  let r := validate_emails ua email_list in
  (length (valid r) + length (invalid r) = length email_list)%nat
  /\ total_valid r = length (valid r)
  /\ total_invalid r = length (invalid r)
  /\ valid r = filter (fun e => strict_ok ua e = true) email_list
  /\ invalid r = filter (fun e => ~ strict_ok ua e = true) email_list
  /\ (forall e, e ∈ email_list ->
        (e ∈ valid r /\ e ∉ invalid r) \/ (e ∈ invalid r /\ e ∉ valid r))
  /\ valid r ++ invalid r ≡ₚ email_list
  /\ valid r `sublist_of` email_list
  /\ invalid r `sublist_of` email_list.
Proof.
  intros r. subst r. unfold validate_emails.
  rewrite validate_fold. simpl.
  pose proof (filter_app_complement (fun e => strict_ok ua e = true) email_list)
    as Hperm.
  split.
  { rewrite <- length_app. by rewrite Hperm. }
  repeat split; try done.
  - intros e He. destruct (strict_ok ua e) eqn:Hs.
    + left. rewrite !list_elem_of_filter. split; [done|].
      intros [Hn _]. by apply Hn.
    + right. rewrite !list_elem_of_filter. split.
      * split; [congruence|done].
      * intros [Hn _]. congruence.
  - apply sublist_filter.
  - apply sublist_filter.
Qed.

Section Pipeline.

Variable ua : Z -> bool.
Variable ul : pystr -> pystr.
Variable os_fault : syscall -> option pystr.
Variable strerror : failure -> syscall -> pystr.
Variable strftime : pystr -> nat -> pystr.

Abbreviation extract := (extract_emails_from_text ua ul os_fault strerror strftime).


(** C1, as the code behaves. For every input file that exists, can be
    read and holds no match, the function returns the empty list together
    with the output path it had chosen (a string, not the null value), and
    leaves the tree of files as it was: no report is written. *)
Theorem C1_no_match_still_returns_path (input_file : path)
    (output_file : option path) (w : world) (content : pystr) :
  lookup_node (w_fs w) input_file = Some (File content) ->
  os_fault (SysRead input_file) = None ->
  find_emails ua content = [] ->
  exists w',
    extract input_file output_file w
    = (Ok ([], Some (path_str (output_path strftime input_file output_file
                                 (w_ticks w)))), w')
    /\ w_fs w' = w_fs w /\ w_requests w' = w_requests w.
Proof.
  intros Hl Hf Hnone. rewrite extract_unfold, Hl.
  destruct (at_try_frame strftime output_file w) as (Hfs & Hr & _).
  destruct (extract_body_no_match ua ul os_fault strerror strftime input_file
              (output_path strftime input_file output_file (w_ticks w))
              (at_try strftime output_file w) content)
    as (w2 & Hrun & Hfs2 & Hr2 & _); [by rewrite Hfs|done|done|].
  cbv zeta. rewrite Hrun. exists w2. split; [done|]. split; congruence.
Qed.




(** C7. Whenever a run returns a non-empty list with an output path,
    that path names a file of the resulting tree; its text is the report,
    and reading the report back for the enumerated lines that end it gives
    the returned list again: same items, same order. Reading every
    enumerated line of the report gives the list as well, as long as
    neither the source path nor the date printed in the header holds a
    line feed. *)
Theorem C7_report_round_trip (input_file : path)
    (output_file : option path) (w w' : world) (emails : list pystr)
    (p : pystr) :
  extract input_file output_file w = (Ok (emails, Some p), w') ->
  emails <> [] ->
  exists out date,
    p = path_str out
    /\ out = output_path strftime input_file output_file (w_ticks w)
    /\ w_fs w' !! out = Some (File (report_text input_file date emails))
    /\ reparse_report (report_text input_file date emails) = emails
    /\ (NL ∉ path_str input_file -> NL ∉ date ->
        reparse_all_lines (report_text input_file date emails) = emails).
Proof.
  intros Hrun Hne. rewrite extract_unfold in Hrun.
  destruct (lookup_node (w_fs w) input_file);
    [|by destruct (os_fault (SysStat input_file))].
  cbv zeta in Hrun.
  destruct (extract_body _ _ _ _ _ _ _ _) as [[emails'|e] w2] eqn:Hb; [|done].
  inversion Hrun; subst emails' p w2; clear Hrun.
  apply extract_body_inv in Hb as (content & Hl & Hem & _ & Hfs).
  destruct emails as [|e es]; [done|].
  destruct Hfs as (date & Hfs).
  assert (Hnl : Forall (fun x => NL ∉ x) (e :: es)).
  { apply Forall_forall. intros x Hx.
    rewrite Hem in Hx.
    rewrite dedup_first_seen in Hx.
    apply (sublist_subseteq _ _ (first_seen_sublist ul [] _)) in Hx.
    by eapply found_no_NL. }
  eexists _, date. split; [reflexivity|]. split; [reflexivity|].
  split; [|split].
  - rewrite Hfs. apply lookup_insert_eq.
  - by apply reparse_report_text.
  - intros Hp Hd. by apply reparse_all_lines_text.
Qed.

End Pipeline.



(** C1 on a file that holds no address. *)
Lemma C1_witness :
  find_emails ascii_only (lit "no addresses in this note") = []
  /\ exists w',
       extract_emails_from_text ascii_only keep_case no_fault plain_text frozen_clock
         notes_txt None (world_with (lit "no addresses in this note"))
       = (Ok ([], Some (path_str (output_path frozen_clock notes_txt None O))),
          w')
       /\ w_fs w' = w_fs (world_with (lit "no addresses in this note"))
       /\ w_requests w'
          = w_requests (world_with (lit "no addresses in this note")).
Proof.
  split; [by vm_compute|].
  apply (C1_no_match_still_returns_path ascii_only keep_case no_fault plain_text
           frozen_clock notes_txt None
           (world_with (lit "no addresses in this note"))
           (lit "no addresses in this note")).
  - by vm_compute.
  - done.
  - by vm_compute.
Defined.

(** The path returned there is a string, and no file bears it. *)
Example C1_returned_path_is_not_written :
  let w := world_with (lit "no addresses in this note") in
  let r := extract_emails_from_text ascii_only keep_case no_fault plain_text
             frozen_clock notes_txt None w in
  r.1 = Ok ([], Some (lit "/data/extracted_emails_20240101_120000.txt"))
  /\ (w_fs r.2) !! [lit "data"; lit "extracted_emails_20240101_120000.txt"]
     = None.
Proof. by vm_compute. Qed.

(** C7 on the text of the specification's third example. *)
Lemma C7_witness :
  let w := world_with (lit "contact a@b.com or A@B.COM today") in
  let run := extract_emails_from_text ascii_only keep_case no_fault plain_text
               frozen_clock notes_txt None w in
  run.1 = Ok ([lit "a@b.com"],
              Some (lit "/data/extracted_emails_20240101_120000.txt"))
  /\ exists out date,
       lit "/data/extracted_emails_20240101_120000.txt" = path_str out
       /\ out = output_path frozen_clock notes_txt None (w_ticks w)
       /\ w_fs run.2 !! out
          = Some (File (report_text notes_txt date [lit "a@b.com"]))
       /\ reparse_report (report_text notes_txt date [lit "a@b.com"])
          = [lit "a@b.com"]
       /\ (NL ∉ path_str notes_txt -> NL ∉ date ->
           reparse_all_lines (report_text notes_txt date [lit "a@b.com"])
           = [lit "a@b.com"]).
Proof.
  intros w run.
  assert (H1 : run.1 = Ok ([lit "a@b.com"],
                 Some (lit "/data/extracted_emails_20240101_120000.txt")))
    by (vm_compute; reflexivity).
  split; [exact H1|].
  apply (C7_report_round_trip ascii_only keep_case no_fault plain_text frozen_clock
           notes_txt None w run.2 [lit "a@b.com"]
           (lit "/data/extracted_emails_20240101_120000.txt")).
  - apply run_eq. exact H1.
  - discriminate.
Defined.

(** The third example of the specification: two raw matches, one entry,
    in the casing seen first. *)
Example dedup_first_casing :
  find_emails ascii_only (lit "contact a@b.com or A@B.COM today")
  = [lit "a@b.com"; lit "A@B.COM"]
  /\ dedup keep_case
       (find_emails ascii_only (lit "contact a@b.com or A@B.COM today"))
     = [lit "a@b.com"].
Proof. by vm_compute. Qed.

(** The fourth example of the specification. *)
Example validation_example :
  let r := validate_emails ascii_only
             [lit "user@example.com"; lit "bad@domain"; lit "x@y.co.uk"] in
  valid r = [lit "user@example.com"; lit "x@y.co.uk"]
  /\ invalid r = [lit "bad@domain"].
Proof. by vm_compute. Qed.

(** C2, as the code behaves. The two patterns share the classes of the
    local part and of the domain; the class of the last label is the
    letters in the strict pattern and the letters and the bar in the
    discovery pattern. For a string without a bar: when the whole string
    matches the discovery pattern it matches the strict one; when it
    matches the strict pattern, starts with a word character and does not
    end with a line feed, the whole string matches the discovery pattern.
    Every entry discovery returns that holds no bar is classified
    valid. *)
Theorem C2_patterns_differ_in_anchoring (ua : Z -> bool) (s : pystr) :
  (forall c, tld_cls c = true <-> strict_tld_cls c = true \/ c = BAR)
  /\ (BAR ∉ s ->
      is_Some (re_fullmatch ua email_pattern s) ->
      is_Some (re_match ua strict_pattern s))
  /\ (is_Some (re_match ua strict_pattern s) ->
      word_opt ua (head s) = true -> last s <> Some NL ->
      is_Some (re_fullmatch ua email_pattern s))
  /\ (forall content,
        s ∈ find_emails ua content -> BAR ∉ s -> strict_ok ua s = true).
Proof.
  split.
  { intros c. split.
    - intros H. destruct (decide (c = BAR)) as [->|Hne]; [by right|].
      left. by apply tld_not_bar_is_strict.
    - intros [H| ->]; [by apply strict_tld_is_tld|by vm_compute]. }
  split; [intros; by apply fullmatch_discovery_strict|].
  split; [intros; by apply strict_fullmatch_discovery|].
  intros content. apply found_without_bar_valid.
Qed.

(** C2 at an ordinary address. *)
Lemma C2_witness :
  (BAR ∉ lit "a@b.com")
  /\ is_Some (re_fullmatch ascii_only email_pattern (lit "a@b.com"))
  /\ is_Some (re_match ascii_only strict_pattern (lit "a@b.com"))
  /\ strict_ok ascii_only (lit "a@b.com") = true.
Proof.
  pose proof (C2_patterns_differ_in_anchoring ascii_only (lit "a@b.com"))
    as (_ & H1 & H2 & H3).
  assert (Hbar : BAR ∉ (lit "a@b.com")).
  { intros Hin. apply list_elem_of_In in Hin. vm_compute in Hin.
    repeat destruct Hin as [Hin|Hin]; done. }
  assert (Hfull : is_Some (re_fullmatch ascii_only email_pattern
                             (lit "a@b.com")))
    by (eexists; vm_compute; reflexivity).
  split; [exact Hbar|]. split; [exact Hfull|].
  split; [by apply H1|].
  apply (H3 (lit "write to a@b.com")); [|exact Hbar].
  apply list_elem_of_In. vm_compute. by left.
Defined.

(** The equivalence C2 states fails: ["-@b.com"] matches the strict
    pattern, and the whole of it does not match the discovery pattern,
    which wants a word boundary before the hyphen; no bar is involved. *)
Lemma C2_counterexample :
  (forall ua, is_Some (re_match ua strict_pattern (lit "-@b.com")))
  /\ (forall ua, re_fullmatch ua email_pattern (lit "-@b.com") = None).
Proof.
  split; intros ua.
  - eexists. vm_compute. reflexivity.
  - by vm_compute.
Qed.

(** A character that a check of the whole string does not meet is not
    in it. *)
Lemma absent_check (c : Z) (l : pystr) :
  forallb (fun x => negb (x =? c)) l = true -> c ∉ l.
Proof.
  intros H Hin. apply list_elem_of_In in Hin.
  rewrite forallb_forall in H. apply H in Hin.
  by rewrite Z.eqb_refl in Hin.
Qed.

(** Discovery, for every text, without the engine: at each position
    reached it returns the longest substring of the form
    [local@domain.label] that has the assertion [\b] of the pattern at both
    ends, the label being two or more of the letters and the bar; it
    resumes after that match, or one character further where none
    starts. *)
Theorem discovery_is_leftmost_longest (ua : Z -> bool) (text : pystr) :
  find_emails ua text = boundary_discovery ua tld_cls text.
Proof. apply DiscoveryFacts.discovery_is_scan. Qed.

(** Discovery and the wording of the specification (no letter, digit or
    underscore immediately before or after a match, the last label two or
    more letters) can part only at a bar or at a match that starts with
    one of [. % + -]: on a text without a bar, when every match of either
    starts with a letter, a digit or an underscore, both return the same
    sequence. *)
Theorem discovery_meets_spec_wording (ua : Z -> bool) (text : pystr) :
  BAR ∉ text ->
  (forall e, e ∈ find_emails ua text -> word_opt ua (head e) = true) ->
  (forall e, e ∈ spec_discovery ua strict_tld_cls text ->
             word_opt ua (head e) = true) ->
  find_emails ua text = spec_discovery ua strict_tld_cls text.
Proof.
  intros Hbar. rewrite DiscoveryFacts.discovery_is_scan.
  unfold boundary_discovery, spec_discovery.
  rewrite DiscoveryFacts.boundary_scan_no_bar by done.
  apply DiscoveryFacts.boundary_scan_is_spec_scan.
Qed.

(** The same on a text with addresses next to punctuation, a second
    level domain and a repeated address. *)
Lemma discovery_meets_spec_wording_witness :
  find_emails ascii_only
    (lit "Mail x.y@z.co.uk, (a@b.com) or a@b.com; not @c.de nor e@f")
  = spec_discovery ascii_only strict_tld_cls
      (lit "Mail x.y@z.co.uk, (a@b.com) or a@b.com; not @c.de nor e@f")
  /\ find_emails ascii_only
       (lit "Mail x.y@z.co.uk, (a@b.com) or a@b.com; not @c.de nor e@f")
     = [lit "x.y@z.co.uk"; lit "a@b.com"; lit "a@b.com"].
Proof.
  split; [|by vm_compute].
  apply (discovery_meets_spec_wording ascii_only
           (lit "Mail x.y@z.co.uk, (a@b.com) or a@b.com; not @c.de nor e@f")).
  - apply absent_check. by vm_compute.
  - intros e He. apply list_elem_of_In in He.
    revert e He. apply forallb_forall. by vm_compute.
  - intros e He. apply list_elem_of_In in He.
    revert e He. apply forallb_forall. by vm_compute.
Defined.

(** Where a substring of that form starts with one of [. % + -], the
    pattern and the wording of the specification part: [\b] before such a
    character asks for a word character in front of it, the specification
    for none. No bar is involved. *)
Example boundary_is_not_the_wording :
  find_emails ascii_only (lit "+a@b.com") = [lit "a@b.com"]
  /\ spec_discovery ascii_only strict_tld_cls (lit "+a@b.com")
     = [lit "+a@b.com"]
  /\ find_emails ascii_only (lit "-@b.com") = []
  /\ spec_discovery ascii_only strict_tld_cls (lit "-@b.com")
     = [lit "-@b.com"]
  /\ find_emails ascii_only (lit "a@b.com-x@c.org")
     = [lit "a@b.com"; lit "-x@c.org"]
  /\ spec_discovery ascii_only strict_tld_cls (lit "a@b.com-x@c.org")
     = [lit "a@b.com"; lit "x@c.org"].
Proof. by vm_compute. Qed.

(** C3 at a text with a bar after the top-level label: the code returns
    the text up to and including the bar and what follows, where the
    specification's discovery (last label of letters only) returns the
    address without it. The strict pattern of the same file takes letters
    only. *)
Theorem C3_bar_accepted_in_top_level_label (ua : Z -> bool) :
  find_emails ua (lit "a@b.co|m") = [lit "a@b.co|m"]
  /\ spec_discovery ua strict_tld_cls (lit "a@b.co|m") = [lit "a@b.co"]
  /\ strict_ok ua (lit "a@b.co|m") = false
  /\ strict_ok ua (lit "a@b.co") = true.
Proof. by vm_compute. Qed.

End EmailProps.

(** ** The title scraper *)

Module ScraperProps.

Import Re Sys RunFacts Scraper Demo.
Local Open Scope py_scope.


Section Run.

Variable ua : Z -> bool.
Variable unicode_space : Z -> bool.
Variable os_fault : syscall -> option pystr.
Variable strerror : failure -> syscall -> pystr.
Variable strftime : pystr -> nat -> pystr.
Variable urlparse : pystr -> res (pystr * pystr).
Variable http_get : pystr -> Z -> nat -> res (Z * pystr).
Variable title_search : pystr -> option pystr.
Variable script_dir : path.

Abbreviation scrape :=
  (scrape_webpage_title ua unicode_space os_fault strerror strftime urlparse http_get
     title_search script_dir).
Abbreviation body :=
  (scrape_body ua unicode_space os_fault strerror strftime urlparse http_get
     title_search script_dir).




(** C9. For every URL that parses without a scheme or without a
    network location, the function returns three null values at once: it
    has printed the one line about the URL's format, and nothing else
    happened: no request was sent, the tree of files is the same and the
    clock was not read. *)
Theorem C9_invalid_url_returns_at_once (url : pystr)
    (output_file : option path) (timeout : Z) (w : world)
    (scheme netloc : pystr) :
  urlparse url = Ok (scheme, netloc) ->
  scheme = [] \/ netloc = [] ->
  exists w',
    scrape url output_file timeout w = (Ok (None, None, None), w')
    /\ w_requests w' = w_requests w /\ w_fs w' = w_fs w
    /\ w_ticks w' = w_ticks w
    /\ w_console w' = w_console w ++ [msg_invalid_url url].
Proof.
  intros Hp Hempty.
  unfold scrape_webpage_title, try_except, scrape_body, bind at 1, lift_res.
  rewrite Hp.
  destruct Hempty as [-> | ->].
  - eexists. split; [reflexivity|done].
  - destruct scheme; (eexists; split; [reflexivity|done]).
Qed.


End Run.

(** C9 on a string without a scheme. *)
Lemma C9_witness :
  demo_urlparse (lit "not a url") = Ok ([], [])
  /\ exists w',
       scrape_webpage_title ascii_only ascii_only no_fault plain_text frozen_clock
         demo_urlparse demo_http_get demo_title_search [lit "scripts"]
         (lit "not a url") None 10 (world_with [])
       = (Ok (None, None, None), w')
       /\ w_requests w' = w_requests (world_with [])
       /\ w_fs w' = w_fs (world_with [])
       /\ w_ticks w' = w_ticks (world_with [])
       /\ w_console w'
          = w_console (world_with []) ++ [msg_invalid_url (lit "not a url")].
Proof.
  split; [by vm_compute|].
  apply (C9_invalid_url_returns_at_once ascii_only ascii_only no_fault plain_text
           frozen_clock demo_urlparse demo_http_get demo_title_search
           [lit "scripts"] (lit "not a url") None 10 (world_with []) [] []).
  - by vm_compute.
  - by left.
Defined.


End ScraperProps.

(** ** The image mover *)

Module MoverProps.

Import Sys TreeFacts RunFacts Mover Demo.
Local Open Scope py_scope.

Section Run.

Variable os_fault : syscall -> option pystr.
Variable strerror : failure -> syscall -> pystr.

Abbreviation move := (move_jpg_files os_fault strerror).







End Run.


(** The same call, evaluated: the source holds a note and no image,
    nothing is moved, and both new directories are there. *)
Example C10_no_image_example :
  let dest := [lit "out"; lit "moved_images"] in
  let r := move_jpg_files no_fault plain_text data_dir dest
             (world_with (lit "a note")) in
  r.1 = Ok (O, [])
  /\ is_dir (w_fs (world_with (lit "a note"))) dest = false
  /\ is_dir (w_fs r.2) [lit "out"] = true
  /\ is_dir (w_fs r.2) dest = true.
Proof. vm_compute. done. Qed.


(** [mkdir(parents=True)] makes the parents one at a time: where the
    system refuses the last [mkdir], the call raises after the parent was
    made, and the directory stays. *)
Example mkdir_can_stop_halfway :
  let dest := [lit "out"; lit "moved_images"] in
  let refuse_leaf (call : syscall) :=
    match call with
    | SysMkdir [a; b] =>
        Some (lit "[Errno 28] No space left on device: " ++ quoted [a; b])
    | _ => None
    end in
  let r := move_jpg_files refuse_leaf plain_text data_dir dest
             (world_with (lit "a note")) in
  r.1 = Raise (OSError (lit "[Errno 28] No space left on device: "
                        ++ quoted dest))
  /\ is_dir (w_fs (world_with (lit "a note"))) [lit "out"] = false
  /\ is_dir (w_fs r.2) [lit "out"] = true
  /\ is_dir (w_fs r.2) dest = false.
Proof. vm_compute. done. Qed.

End MoverProps.
